(** * fresh_script: the title parser, the track resolver and the playlist sync

    A shallow embedding of [fresh.py]: [filter_tags], [extract_track_url],
    [addSpotifyTrack] and the two loops of [main] (the pass over the feed
    that fills the batches, and the remove-then-add pass over the
    playlists), with the properties its design document states about them. *)

From Stdlib Require Import ZArith Ascii String List Lia.
From stdpp Require Import base gmap strings list pretty.

Import ListNotations.
Local Open Scope string_scope.
Local Open Scope list_scope.

(** ** Characters and strings

    A Python [str] is a sequence of code points.  The model keeps the code
    points below 256 (Latin-1), one [ascii] each; on them [str.lower] maps
    a single character to a single character. *)

Module PyStr.

Definition code (c : ascii) : N := N_of_ascii c.

(** [c.lower()]: A-Z, and the upper-case letters of Latin-1
    (U+00C0..U+00DE, U+00D7 being the multiplication sign). *)
Definition lower (c : ascii) : ascii :=
  let n := code c in
  if ((65 <=? n) && (n <=? 90))%N then ascii_of_N (n + 32)
  else if ((192 <=? n) && (n <=? 222) && negb (n =? 215))%N
       then ascii_of_N (n + 32)
  else c.

(** [c.isspace()], the separators of [str.split()] without argument:
    U+0009..U+000D, U+001C..U+001F, U+0020, U+0085 and U+00A0. *)
Definition isspace (c : ascii) : bool :=
  let n := code c in
  (((9 <=? n) && (n <=? 13)) || ((28 <=? n) && (n <=? 32))
   || (n =? 133) || (n =? 160))%N.

(** [''.join(chars)] for a list of one-character strings. *)
Definition join_chars (chars : list ascii) : string :=
  string_of_list_ascii chars.

(** The pending word of [split], closed at a separator or at the end. *)
Definition flush (cur : list ascii) : list string :=
  match cur with
  | [] => []
  | _ => [join_chars cur]
  end.

(** [s.split()]: maximal runs of non-space characters. *)
Fixpoint split_go (cur : list ascii) (s : list ascii) : list string :=
  match s with
  | [] => flush cur
  | c :: s' =>
      if isspace c then flush cur ++ split_go [] s'
      else split_go (cur ++ [c]) s'
  end.

Definition split (s : list ascii) : list string := split_go [] s.

(** [' '.join(words)]. *)
Fixpoint join_space (words : list string) : string :=
  match words with
  | [] => ""
  | [w] => w
  | w :: ws => w ++ " " ++ join_space ws
  end.

(** [needle in s] for strings: some suffix of [s] starts with [needle]. *)
Fixpoint contains (needle s : string) : bool :=
  String.prefix needle s ||
  match s with
  | EmptyString => false
  | String _ s' => contains needle s'
  end.

(** [seq[:stop]] for lists, with Python's reading of a negative stop. *)
Definition slice_to {A} (l : list A) (stop : Z) : list A :=
  if (stop <? 0)%Z then take (Z.to_nat (Z.of_nat (length l) + stop)) l
  else take (Z.to_nat stop) l.

(** Membership of a character in a string. *)
Definition has_char (c : ascii) (s : string) : Prop :=
  c ∈ list_ascii_of_string s.

(** [c in string.punctuation] *)
Definition is_punct (c : ascii) : bool :=
  let n := code c in
  (((33 <=? n) && (n <=? 47)) || ((58 <=? n) && (n <=? 64))
   || ((91 <=? n) && (n <=? 96)) || ((123 <=? n) && (n <=? 126)))%N.

(** A token made of punctuation characters only. *)
Definition punctuation_only (w : string) : bool :=
  negb (String.eqb w "") && forallb is_punct (list_ascii_of_string w).

End PyStr.

(** ** The constants module

    [fresh.py] imports [pun_dict] and [ft_set] from [constants]. *)

(** Modelled from the spec: [constants.pun_dict], which is not part of the
    sources at hand.  The parser looks a closer up in it and compares the
    result with the recorded opener ("the matching closer for openChar"):
    it maps each closer to its opener. *)
Definition pun_dict : gmap ascii ascii :=
  <["]"%char := "["%char]> (<[")"%char := "("%char]> ∅).

(** ** filter_tags *)

Module TagParser.
Import PyStr.

(** The local variables of the scan. *)
Record scan_state := ScanState {
  tags : gset string;
  filtered_title : list ascii;
  tag : list ascii;
  last_pun : option ascii;
  add_to_tag : bool
}.

Definition scan_init : scan_state :=
  ScanState ∅ [] [] None false.

Definition is_opener (c : ascii) : bool :=
  (c =? "[")%char || (c =? "(")%char.

Definition is_closer (c : ascii) : bool :=
  (c =? "]")%char || (c =? ")")%char.

(** [for add_tag in ''.join(tag).split(): tags.add(add_tag)] *)
Definition add_tags (tg : list ascii) (ts : gset string) : gset string :=
  foldl (fun acc w => acc ∪ {[ w ]}) ts (split tg).

(** One turn of the loop over the title's characters. *)
Definition scan_step (st : scan_state) (character : ascii) : scan_state :=
  let character := lower character in
  if is_opener character then
    if add_to_tag st then
      ScanState (tags st) (filtered_title st) (tag st ++ [character])
                (last_pun st) true
    else
      ScanState (tags st) (filtered_title st) (tag st)
                (Some character) true
  else if is_closer character then
    if add_to_tag st then
      if decide (pun_dict !! character = last_pun st) then
        ScanState (add_tags (tag st) (tags st)) (filtered_title st) []
                  (last_pun st) false
      else
        ScanState (tags st) (filtered_title st) (tag st ++ [character])
                  (last_pun st) true
    else st
  else if negb (character =? "-")%char then
    if add_to_tag st then
      ScanState (tags st) (filtered_title st) (tag st ++ [character])
                (last_pun st) true
    else
      ScanState (tags st) (filtered_title st ++ [character]) (tag st)
                (last_pun st) false
  else st.

Definition scan (st : scan_state) (title : string) : scan_state :=
  foldl scan_step st (list_ascii_of_string title).

(** The invariant of the scan: no dash in the tag buffer, only non-empty
    words without white space or dash in the tag set, no bracket in the
    title buffer. *)
Definition not_bracket (c : ascii) : Prop :=
  is_opener c = false ∧ is_closer c = false.

Definition tag_char (c : ascii) : Prop := c ≠ "-"%char.

Definition tag_word (w : string) : Prop :=
  w ≠ "" ∧
  Forall (λ c, tag_char c ∧ isspace c = false) (list_ascii_of_string w).

Definition scan_ok (st : scan_state) : Prop :=
  Forall tag_char (tag st) ∧
  (∀ w, w ∈ tags st → tag_word w) ∧
  Forall not_bracket (filtered_title st).

Section Truncation.
(** [constants.ft_set]: the marker words, a configuration input. *)
Variable ft_set : gset string.

(** The loop [for i in range(len(filtered_title))]: [k] is the next
    value of the range, [i] the current value of the loop variable;
    the result is the value of [i] after the loop. *)
Fixpoint ft_loop (ws : list string) (k : Z) (i : Z) : Z :=
  match ws with
  | [] => i
  | w :: rest =>
      if decide (w ∈ ft_set) then (k - 1)%Z
      else ft_loop rest (k + 1)%Z k
  end.

(** [i = 0; for ...; filtered_title = filtered_title[:i + 1]] *)
Definition ft_truncate (words : list string) : list string :=
  let i := ft_loop words 0%Z 0%Z in
  slice_to words (i + 1)%Z.

Definition filter_tags (title : string) : string * gset string :=
  let st := scan scan_init title in
  let words := split (filtered_title st) in
  (join_space (ft_truncate words), tags st).
End Truncation.

End TagParser.

(** ** Exceptions, console output and the catalog client *)

Inductive exn :=
| NameError (name : string)
| UnboundLocalError (name : string)
| ClientError (status : Z).

(** What [print] writes, one constructor per [print] statement. *)
Inductive line :=
| PostTitle (title : string)
| PostUrl (url : string)
| PostScore (score : Z)
| Rule
| NewTracksAdded (name : string) (n : Z)
| BlankLine
| NoNewTracks
| ErrorOccurred.

(** A post of the feed ([praw] submission): the four fields read. *)
Record post := Post {
  title : string;
  url : string;
  domain : string;
  score : Z
}.

(** [models.User]: the attributes the sync reads. *)
Record user := User {
  username : string;
  playlists : list string
}.

(** The search response, a dict of dicts: a key is optional where
    [extract_track_url] tests for it with [in]. *)
Module Response.
Record item := Item { external_urls : option (gmap string string) }.
Record tracks_page := TracksPage { items : option (list item) }.
Record search_response := SearchResponse { tracks : option tracks_page }.
End Response.
Import (coercions) Response.
Abbreviation search_response := Response.search_response.

Inductive search_type := TypeTrack | TypeAlbum.

(** [spotifyObj]: the calls [main] makes on the catalog client.  Each may
    raise and may change the state [W] of the service. *)
Class Catalog (W : Type) := {
  add_result : Type;
  (** [results == []] *)
  is_empty_list : add_result -> bool;
  search : string -> search_type -> W -> (exn + option search_response) * W;
  (** the ['total'] of the response *)
  user_playlist_tracks : string -> string -> W -> (exn + Z) * W;
  user_playlist_remove_all_occurrences_of_tracks :
    string -> string -> list string -> W -> (exn + unit) * W;
  user_playlist_add_tracks :
    string -> string -> list string -> W -> (exn + add_result) * W;
  (** the ['name'] of the response to [user_playlist(_, _, 'name')] *)
  user_playlist_name : string -> string -> W -> (exn + string) * W
}.

(** ** The program monad: state of the service, console, and the local
    [results] of [main], which the exception handler reads. *)

Section Program.
Context {W : Type} `{Cat : Catalog W}.

Record machine := Machine {
  world : W;
  stdout : list line;
  results : option add_result
}.

Definition Prog (A : Type) : Type := machine -> (exn + A) * machine.

Definition ret {A} (a : A) : Prog A := fun m => (inr a, m).

Definition bind {A B} (p : Prog A) (k : A -> Prog B) : Prog B :=
  fun m =>
    match p m with
    | (inl e, m') => (inl e, m')
    | (inr a, m') => k a m'
    end.

Definition raise {A} (e : exn) : Prog A := fun m => (inl e, m).

Definition print (l : line) : Prog unit :=
  fun m => (inr tt, Machine (world m) (stdout m ++ [l]) (results m)).

(** A call on the client. *)
Definition call {A} (op : W -> (exn + A) * W) : Prog A :=
  fun m =>
    let '(r, w) := op (world m) in
    (r, Machine w (stdout m) (results m)).

Definition set_results (r : add_result) : Prog unit :=
  fun m => (inr tt, Machine (world m) (stdout m) (Some r)).

(** [try: body except: handler] with a bare [except]. *)
Definition try_except {A} (body : Prog A) (handler : Prog A) : Prog A :=
  fun m =>
    match body m with
    | (inl _, m') => handler m'
    | (inr a, m') => (inr a, m')
    end.
End Program.

Arguments machine W {Cat}.
Arguments Prog W {Cat} A.

Notation "'do' x <- p ; k" := (bind p (fun x => k))
  (at level 10, x pattern, p at level 100, k at level 200).
Notation "p ;; k" := (bind p (fun _ => k))
  (at level 100, k at level 200, right associativity).

(** ** extract_track_url *)

Module Resolver.
Import Response.

(** [for item in items]: return at the first item with both keys. *)
Fixpoint first_url (its : list item) : option string :=
  match its with
  | [] => None
  | it :: rest =>
      match external_urls it with
      | Some urls =>
          match urls !! "spotify" with
          | Some u => Some u
          | None => first_url rest
          end
      | None => first_url rest
      end
  end.

(** The function returns [None] by falling off its end. *)
Definition extract_track_url (search : search_response) : option string :=
  match tracks search with
  | Some trs =>
      match items trs with
      | Some its => first_url its
      | None => None
      end
  | None => None
  end.

(** The link a candidate carries under [external_urls.spotify], if any:
    what the two [in] tests of the loop body look for. *)
Definition spotify_link (it : item) : option string :=
  match external_urls it with
  | Some urls => urls !! "spotify"
  | None => None
  end.

(** [if track_url:] is taken for a string that is not empty. *)
Definition truthy (track_url : string) : bool :=
  negb (String.eqb track_url "").

End Resolver.

(** ** The pass over the feed *)

Module Feed.
Import PyStr Resolver.

(** [re.search('(track|album)', url)]: group 1 of the leftmost match. *)
Fixpoint re_search_track_album (s : string) : option string :=
  if String.prefix "track" s then Some "track"
  else if String.prefix "album" s then Some "album"
  else match s with
       | EmptyString => None
       | String _ s' => re_search_track_album s'
       end.

(** [url.split('?')[0]] *)
Fixpoint before_query (s : string) : string :=
  match s with
  | EmptyString => EmptyString
  | String c s' =>
      if (c =? "?")%char then EmptyString else String c (before_query s')
  end.

(** [threshold and sub.score < threshold]: [None] and [0] are false. *)
Definition below_threshold (threshold : option Z) (sc : Z) : bool :=
  match threshold with
  | Some t => negb (t =? 0)%Z && (sc <? t)%Z
  | None => false
  end.

Section WithCatalog.
Context {W : Type} `{Cat : Catalog W}.
Variable ft_set : gset string.
Variables (fresh : bool) (threshold : option Z)
          (includeAlbums verbose : bool).

Definition print_post (sub : post) : Prog W unit :=
  print (PostTitle (title sub)) ;;
  print (PostUrl (url sub)) ;;
  print (PostScore (score sub)) ;;
  print Rule.

(** [tracks] is the list the caller passes in; the function appends to
    it in place, which is modelled by returning the list.  The name
    [spotifyObj] is a local of [main] and no global of the module, so
    the album branch raises [NameError] when it evaluates it. *)
Definition addSpotifyTrack (sub : post) (tracks : list string)
  : Prog W (list string) :=
  match re_search_track_album (url sub) with
  | Some kind =>
      (if verbose then print_post sub else ret tt) ;;
      if below_threshold threshold (score sub) then ret tracks
      else if fresh && negb (contains "[FRESH]" (title sub)) then ret tracks
      else
        let formattedUrl := before_query (url sub) in
        if includeAlbums && String.eqb kind "album" then
          raise (NameError "spotifyObj")
        else if String.eqb kind "track" then ret (tracks ++ [formattedUrl])
        else ret tracks
  | None => ret tracks
  end.

Definition otherDomainList : list string :=
  ["youtu.be"; "youtube.com"; "soundcloud.com"].

(** The [else] branch of the loop body: a post of another domain.
    [if search:] is modelled by the [Some] case: for an empty dict
    [extract_track_url] finds nothing, as the skipped branch does. *)
Definition search_title (sub : post) (tracks : list string)
  : Prog W (list string) :=
  let '(title, tags) := TagParser.filter_tags ft_set (title sub) in
  if decide ("discussion" ∉ tags) then
    if decide ("album" ∈ tags ∨ "impressions" ∈ tags) then
      do _ <- call (search title TypeAlbum);
      ret tracks
    else
      do found <- call (search title TypeTrack);
      match found with
      | Some response =>
          match extract_track_url response with
          | Some track_url =>
              if truthy track_url then
                (if bool_decide (domain sub ∈ otherDomainList) && verbose
                 then print_post sub else ret tt) ;;
                ret (tracks ++ [track_url])
              else ret tracks
          | None => ret tracks
          end
      | None => ret tracks
      end
  else ret tracks.

(** The body of [for sub in sub_choice], before the overflow test. *)
Definition post_step (sub : post) (tracks : list string)
  : Prog W (list string) :=
  if String.eqb (domain sub) "open.spotify.com"
  then addSpotifyTrack sub tracks
  else search_title sub tracks.

(** [for sub in sub_choice: ...; if len(tracks) > 90: ...] *)
Fixpoint feed_loop (subs : list post)
    (tracks : list string) (tracks_array : list (list string))
  : Prog W (list string * list (list string)) :=
  match subs with
  | [] => ret (tracks, tracks_array)
  | sub :: rest =>
      do tracks <- post_step sub tracks;
      if (90 <? Z.of_nat (length tracks))%Z
      then feed_loop rest [] (tracks_array ++ [tracks])
      else feed_loop rest tracks tracks_array
  end.

(** The result of a step that was run on the empty list, for the list
    [tracks]. *)
Definition appended (tracks : list string)
    (r : (exn + list string) * machine W) : (exn + list string) * machine W :=
  match r with
  | (inr new, m') => (inr (tracks ++ new), m')
  | (inl e, m') => (inl e, m')
  end.

(** The tracks the posts resolve to, in feed order: the loop without
    its overflow test.  This is the sequence the batches are compared
    with; [main] itself never builds it. *)
Fixpoint resolve_all (subs : list post) (tracks : list string)
  : Prog W (list string) :=
  match subs with
  | [] => ret tracks
  | sub :: rest =>
      do tracks <- post_step sub tracks;
      resolve_all rest tracks
  end.

(** Lines 452-485: the loop, then [if len(tracks) > 0]. *)
Definition collect (subs : list post)
  : Prog W (list string * list (list string)) :=
  do (tracks, tracks_array) <- feed_loop subs [] [];
  if (0 <? Z.of_nat (length tracks))%Z
  then ret (tracks, tracks_array ++ [tracks])
  else ret (tracks, tracks_array).
End WithCatalog.

End Feed.

(** ** The pass over the playlists *)

Module Sync.

Section WithCatalog.
Context {W : Type} `{Cat : Catalog W}.
Variable u : user.
Variable verbose : bool.

(** The body of the inner loop, for the batch [tr] and one playlist. *)
Definition sync_pair (tr : list string) (playlist : string)
  : Prog W unit :=
  do existing_total <- call (user_playlist_tracks (username u) playlist);
  call (user_playlist_remove_all_occurrences_of_tracks
          (username u) playlist tr) ;;
  do r <- call (user_playlist_add_tracks (username u) playlist tr);
  set_results r ;;
  if verbose then
    do name <- call (user_playlist_name (username u) playlist);
    do total <- call (user_playlist_tracks (username u) playlist);
    print (NewTracksAdded name (Z.abs (existing_total - total))) ;;
    print BlankLine
  else ret tt.

Fixpoint for_playlists (tr : list string) (pls : list string)
  : Prog W unit :=
  match pls with
  | [] => ret tt
  | playlist :: rest => sync_pair tr playlist ;; for_playlists tr rest
  end.

Fixpoint for_batches (tracks_array : list (list string)) : Prog W unit :=
  match tracks_array with
  | [] => ret tt
  | tr :: rest => for_playlists tr (playlists u) ;; for_batches rest
  end.

(** The (batch, playlist) pairs in the order the two loops visit
    them, and the loop body run over such a sequence. *)
Definition pairs (tracks_array : list (list string))
  : list (list string * string) :=
  tr ← tracks_array; (fun playlist => (tr, playlist)) <$> playlists u.

Fixpoint for_pairs (ps : list (list string * string)) : Prog W unit :=
  match ps with
  | [] => ret tt
  | (tr, playlist) :: rest => sync_pair tr playlist ;; for_pairs rest
  end.

(** The call that removes, or the call that adds, raises [e] for the
    pair and leaves the service in state [w']. *)
Definition remove_or_add_fails (tr : list string) (playlist : string)
    (w : W) (e : exn) (w' : W) : Prop :=
  ∃ total w1,
    user_playlist_tracks (username u) playlist w = (inr total, w1) ∧
    (user_playlist_remove_all_occurrences_of_tracks
       (username u) playlist tr w1 = (inl e, w')
     ∨ ∃ w2,
         user_playlist_remove_all_occurrences_of_tracks
           (username u) playlist tr w1 = (inr tt, w2) ∧
         user_playlist_add_tracks (username u) playlist tr w2
         = (inl e, w')).

(** [except:] — reading [results] before any call of
    [user_playlist_add_tracks] has returned raises
    [UnboundLocalError]. *)
Definition handler : Prog W unit :=
  fun m =>
    match results m with
    | None => raise (UnboundLocalError "results") m
    | Some r =>
        if is_empty_list r && verbose then print NoNewTracks m
        else print ErrorOccurred m
    end.

(** Lines 487-508. *)
Definition sync (tracks : list string) (tracks_array : list (list string))
  : Prog W unit :=
  if negb (bool_decide (tracks = [])) || negb (bool_decide (tracks_array = []))
  then
    try_except
      (if (1 <=? Z.of_nat (length tracks_array))%Z
       then for_batches tracks_array
       else ret tt)
      handler
  else ret tt.
End WithCatalog.

End Sync.

(** Lines 452-508 of [main]. *)
Definition main_body {W : Type} `{Cat : Catalog W} (ft_set : gset string)
    (u : user) (fresh : bool) (threshold : option Z)
    (includeAlbums verbose : bool) (sub_choice : list post) : Prog W unit :=
  do (tracks, tracks_array) <-
     Feed.collect ft_set fresh threshold includeAlbums verbose sub_choice;
  Sync.sync u verbose tracks tracks_array.

(** ** An in-memory catalog

    Modelled from the spec: the catalog service behind the client, which
    is outside the repository.  A playlist is an ordered sequence of track
    references in which a reference may occur more than once; removal
    deletes every occurrence of every listed track and is a no-op for an
    absent one, adding appends the tracks in order, and the track count is
    the length of the sequence (sections 4.4 and 6).  A call on an unknown
    playlist fails with status 404, a change of a playlist that is not
    writable with status 403. *)

Module MemCatalog.

Record playlist_state := Playlist {
  pl_name : string;
  pl_tracks : list string;
  pl_writable : bool
}.

Record service := Service {
  lists : gmap string playlist_state;
  index : gmap string search_response
}.

Definition no_match : search_response :=
  Response.SearchResponse (Some (Response.TracksPage (Some []))).

Definition mem_search (q : string) (ty : search_type) (w : service)
  : (exn + option search_response) * service :=
  match ty with
  | TypeTrack => (inr (Some (default no_match (index w !! q))), w)
  | TypeAlbum => (inr (Some no_match), w)
  end.

Definition mem_tracks (owner pl : string) (w : service)
  : (exn + Z) * service :=
  match lists w !! pl with
  | Some p => (inr (Z.of_nat (length (pl_tracks p))), w)
  | None => (inl (ClientError 404), w)
  end.

Definition mem_name (owner pl : string) (w : service)
  : (exn + string) * service :=
  match lists w !! pl with
  | Some p => (inr (pl_name p), w)
  | None => (inl (ClientError 404), w)
  end.

Definition set_tracks (f : list string -> list string)
    (p : playlist_state) : playlist_state :=
  Playlist (pl_name p) (f (pl_tracks p)) (pl_writable p).

(** A change of the tracks of one playlist. *)
Definition mem_update (f : list string -> list string) (pl : string)
    (w : service) : (exn + unit) * service :=
  match lists w !! pl with
  | Some p =>
      if pl_writable p then
        (inr tt, Service (alter (set_tracks f) pl (lists w)) (index w))
      else (inl (ClientError 403), w)
  | None => (inl (ClientError 404), w)
  end.

Definition remove_all (tr : list string) (l : list string) : list string :=
  filter (fun t => t ∉ tr) l.

Definition mem_remove (owner pl : string) (tr : list string) (w : service)
  : (exn + unit) * service :=
  mem_update (remove_all tr) pl w.

Definition mem_add (owner pl : string) (tr : list string) (w : service)
  : (exn + string) * service :=
  match mem_update (fun l => l ++ tr) pl w with
  | (inr _, w') => (inr "snapshot", w')
  | (inl e, w') => (inl e, w')
  end.

#[export] Instance mem_catalog : Catalog service := {|
  add_result := string;
  is_empty_list := fun _ => false;
  search := mem_search;
  user_playlist_tracks := mem_tracks;
  user_playlist_remove_all_occurrences_of_tracks := mem_remove;
  user_playlist_add_tracks := mem_add;
  user_playlist_name := mem_name
|}.

(** The state in which [main] starts: nothing printed, [results] not
    yet bound. *)
Definition start (w : service) : machine service := Machine w [] None.

(** Remove-then-add of one batch on the tracks of a playlist, and of a
    sequence of batches one after the other. *)
Definition readd (tr : list string) (l : list string) : list string :=
  remove_all tr l ++ tr.

Definition readd_all (trs : list (list string)) (l : list string)
  : list string :=
  foldl (fun l tr => readd tr l) l trs.

(** The playlist exists and can be changed. *)
Definition writable (w : service) (pl : string) : bool :=
  match lists w !! pl with
  | Some p => pl_writable p
  | None => false
  end.

(** The pairs a sync reaches: those before the first pair whose playlist
    cannot be changed. *)
Fixpoint live (w : service) (ps : list (list string * string))
  : list (list string * string) :=
  match ps with
  | [] => []
  | (tr, pl) :: rest => if writable w pl then (tr, pl) :: live w rest else []
  end.

(** Remove-then-add of the batch of a pair on the playlist of the pair,
    and of a sequence of pairs. *)
Definition apply_pair (p : list string * string) (w : service) : service :=
  Service (alter (set_tracks (readd p.1)) p.2 (lists w)) (index w).

Definition apply_pairs (ps : list (list string * string)) (w : service)
  : service :=
  foldl (fun w p => apply_pair p w) w ps.

(** The state in which a run leaves the service. *)
Definition final_world {A} (r : (exn + A) * machine service) : service :=
  world r.2.

(** The batches that a sequence of pairs brings to the playlist [pl]. *)
Definition batches_for (pl : string) (ps : list (list string * string))
  : list (list string) :=
  fst <$> filter (fun p => p.2 = pl) ps.

End MemCatalog.

(** ** Sample inputs *)

Module Samples.
Import MemCatalog.

Definition markers : gset string := {[ "ft"; "ft."; "feat"; "feat." ]}.

(** Ninety-five posts that link to ninety-five tracks of the catalog. *)
Definition feed95 : list post :=
  (fun i : nat =>
     Post ("[FRESH] Song " +:+ pretty i)
          ("https://open.spotify.com/track/" +:+ pretty i +:+ "?si=1")
          "open.spotify.com" 10)
  <$> seq 0 95.

(** The tracks they link to. *)
Definition tracks95 : list string :=
  (fun i : nat => "https://open.spotify.com/track/" +:+ pretty i) <$> seq 0 95.

Definition one_playlist : service :=
  Service {[ "p" := Playlist "mix" [] true ]} ∅.

(** A playlist in which a track occurs twice. *)
Definition with_duplicate : service :=
  Service {[ "p" := Playlist "mix" ["a"; "a"; "b"] true ]} ∅.

(** The user's own playlist and one that cannot be changed. *)
Definition with_read_only : service :=
  Service {[ "p" := Playlist "mix" ["a"; "b"] true;
             "q" := Playlist "theirs" ["c"] false ]} ∅.

(** A catalog that knows one title. *)
Definition with_index : service :=
  Service ∅
    {[ "drake song" :=
         Response.SearchResponse
           (Some (Response.TracksPage
              (Some [Response.Item
                       (Some {[ "spotify" :=
                                "https://open.spotify.com/track/abc" ]})]))) ]}.

(** A post on another domain, with a score of 1. *)
Definition low_score_post : post :=
  Post "Drake - Song" "https://youtu.be/x" "youtu.be" 1.

(** The same score on a post that links to the catalog. *)
Definition low_score_link : post :=
  Post "Drake - Song" "https://open.spotify.com/track/abc?si=1"
       "open.spotify.com" 1.

(** The batches of a finished pass over the feed, by size. *)
Definition batch_sizes {W} `{Catalog W}
    (r : (exn + (list string * list (list string))) * machine W)
  : option (list nat) :=
  match r.1 with
  | inr (_, tracks_array) => Some (length <$> tracks_array)
  | inl _ => None
  end.

(** What the sync prints with [verbose] set, for the batches of a
    finished pass over the feed. *)
Definition printed_by_sync {W} `{Catalog W} (u : user)
    (r : (exn + (list string * list (list string))) * machine W)
  : list line :=
  match r with
  | (inr (tracks, tracks_array), m) =>
      stdout (Sync.sync u true tracks tracks_array m).2
  | (inl _, _) => []
  end.

(** What a run returns or raises, what it printed, and the state in
    which it left the service. *)
Definition outcome {S A} (r : (exn + A) * S) : exn + A := r.1.

Definition printed {W A} `{Catalog W} (r : (exn + A) * machine W)
  : list line := stdout r.2.

Definition final {W A} `{Catalog W} (r : (exn + A) * machine W) : W :=
  world r.2.

End Samples.

(** ** More of the string methods *)

Module PyStrMore.
Import PyStr.

(** [s.lower()] *)
Definition lower_string (s : string) : string :=
  string_of_list_ascii (lower <$> list_ascii_of_string s).

(** [s.split(sep)] for a separator of one character: the pieces between
    the occurrences of [sep], the empty ones included. *)
Fixpoint split_on_go (sep : ascii) (cur : list ascii) (s : list ascii)
  : list string :=
  match s with
  | [] => [join_chars cur]
  | c :: s' =>
      if (c =? sep)%char then join_chars cur :: split_on_go sep [] s'
      else split_on_go sep (cur ++ [c]) s'
  end.

Definition split_on (sep : ascii) (s : string) : list string :=
  split_on_go sep [] (list_ascii_of_string s).

(** [s.count(c)] for a character [c]. *)
Definition count_char (c : ascii) (s : string) : nat :=
  length (filter (fun x => x = c) (list_ascii_of_string s)).

End PyStrMore.

(** ** Notions used to state what the parser returns *)

Module TagParserMore.
Import PyStr TagParser.

(** What the scan puts in the tag buffer for the characters that stand
    between an opener and its closer: their lower case, dashes left out. *)
Definition tag_content (inside : list ascii) : list ascii :=
  filter (fun c => c ≠ "-"%char) (lower <$> inside).

(** A character that the scan copies to the title buffer as it is. *)
Definition plain_char (c : ascii) : Prop :=
  not_bracket c ∧ c ≠ "-"%char ∧ lower c = c.

(** The longest prefix of the words without a marker word. *)
Fixpoint before_marker (ft_set : gset string) (ws : list string)
  : list string :=
  match ws with
  | [] => []
  | w :: rest =>
      if decide (w ∈ ft_set) then [] else w :: before_marker ft_set rest
  end.

End TagParserMore.

(** ** createUserFromFile *)

Module Config.
Import PyStr PyStrMore.

(** The exceptions of the function: [ValueError] from the unpacking of
    the split, the three [ConfigFileError]s of the module, and the
    parser's own error, which the function does not catch. *)
Inductive config_exn :=
| ValueError
| ConfigInvalidExtension (extension : string)
| ConfigReadError (config_file : string)
| ConfigMissingKey (config_file : string)
| ParserError.

(** What [open] and [parser.read_file] find under a path: [open] raises
    [OSError], or the parser rejects the text, or it serves the sections
    with their options. *)
Inductive file_state :=
| Unreadable
| Malformed
| Parsed (sections : gmap string (gmap string string)).

(** The arguments with which [models.User] is constructed
    ([playlists=[]] apart). *)
Record user_args := UserArgs {
  ua_username : string;
  ua_client_id : string;
  ua_client_secret : string;
  ua_redirect : string
}.

(** [_, extension = config_file.split('.')] *)
Definition unpack_extension (config_file : string) : config_exn + string :=
  match split_on "." config_file with
  | [_; extension] => inr extension
  | _ => inl ValueError
  end.

Section WithFiles.
Variable files : string -> file_state.

(** Lines 128-153: up to the construction of the user.  The constructor
    and [user.addPlaylists()] belong to [models]. *)
Definition createUserFromFile (config_file : string)
  : config_exn + user_args :=
  match unpack_extension config_file with
  | inl e => inl e
  | inr extension =>
      if negb (String.eqb (lower_string extension) "ini")
      then inl (ConfigInvalidExtension extension)
      else
        match files config_file with
        | Unreadable => inl (ConfigReadError config_file)
        | Malformed => inl ParserError
        | Parsed sections =>
            match sections !! "spotify" with
            | None => inl (ConfigMissingKey config_file)
            | Some spotify =>
                match spotify !! "username", spotify !! "client_id",
                      spotify !! "client_secret", spotify !! "redirect_uri"
                with
                | Some username, Some client_id, Some client_secret,
                  Some redirect_uri =>
                    inr (UserArgs username client_id client_secret
                                  redirect_uri)
                | _, _, _, _ => inl (ConfigMissingKey config_file)
                end
            end
        end
  end.
End WithFiles.

End Config.

(** ** process_args, process_choice_input and process_subreddit *)

Module Args.
Import PyStr PyStrMore.

(** The namespace that [argparse] returns. *)
Record namespace := Namespace {
  a_verbose : bool;
  a_limit : option Z;
  a_sort : option string;
  a_threshold : option Z;
  a_include_albums : bool;
  a_fresh : bool;
  a_playlists : bool
}.

(** The choices that the parser accepts for [--sort]. *)
Definition sort_choices : list string :=
  ["hot"; "new"; "rising"; "random_rising"; "controversial"; "top"].

(** What the user answers when asked: the number for
    [cutie.get_number], the index for [cutie.select], and yes or no for
    [cutie.prompt_yes_or_no]. *)
Record answers := Answers {
  number : Z;
  selected : nat;
  yes_no : bool
}.

(** The interactions of [process_args], in the order they happen. *)
Inductive prompt :=
| AskLimit
| AskSort
| AskFresh
| ManagePlaylists.

(** The tuple that [process_args] returns. *)
Record processed := Processed {
  p_verbose : bool;
  p_limit : Z;
  p_choice : string;
  p_threshold : option Z;
  p_include_albums : bool;
  p_fresh : bool
}.

Definition inputPrompt : list string :=
  ["Enter your desired sorting method:"; "hot"; "new"; "rising";
   "random_rising"; "controversial"; "top"].

(** [inputPrompt[cutie.select(...)]]; [None] is [IndexError]. *)
Definition process_choice_input (selected : nat) : option string :=
  inputPrompt !! selected.

(** The prompts shown, and the tuple ([None] when the menu raised). *)
Definition process_args (args : namespace) (ans : answers)
  : list prompt * option processed :=
  let '(l, asked_limit) :=
    match a_limit args with
    | Some n => if (n =? 0)%Z then (number ans, [AskLimit]) else (n, [])
    | None => (number ans, [AskLimit])
    end in
  let '(choice, asked_sort) :=
    match a_sort args with
    | Some s =>
        if String.eqb s "" then (process_choice_input (selected ans), [AskSort])
        else (Some s, [])
    | None => (process_choice_input (selected ans), [AskSort])
    end in
  match choice with
  | None => (asked_limit ++ asked_sort, None)
  | Some choice =>
      let threshold :=
        match a_threshold args with
        | Some t => if (t =? 0)%Z then None else Some t
        | None => None
        end in
      let '(fresh, asked_fresh) :=
        if a_fresh args then (true, []) else (yes_no ans, [AskFresh]) in
      let managed := if a_playlists args then [ManagePlaylists] else [] in
      (asked_limit ++ asked_sort ++ asked_fresh ++ managed,
       Some (Processed (a_verbose args) l choice threshold
                       (a_include_albums args) fresh))
  end.

(** The listings of a subreddit. *)
Inductive listing := Hot | New | Rising | RandomRising | Controversial | Top.

Definition listing_name (k : listing) : string :=
  match k with
  | Hot => "hot"
  | New => "new"
  | Rising => "rising"
  | RandomRising => "random_rising"
  | Controversial => "controversial"
  | Top => "top"
  end.

(** The listing requested with its limit; [None] when the function
    prints "Unsupported sorting method" and calls [sys.exit()]. *)
Definition process_subreddit (choice : string) (l : Z)
  : option (listing * Z) :=
  if String.eqb (lower_string choice) "hot" then Some (Hot, l)
  else if String.eqb (lower_string choice) "new" then Some (New, l)
  else if String.eqb (lower_string choice) "rising" then Some (Rising, l)
  else if String.eqb (lower_string choice) "random_rising"
       then Some (RandomRising, l)
  else if String.eqb (lower_string choice) "controversial"
       then Some (Controversial, l)
  else if String.eqb (lower_string choice) "top" then Some (Top, l)
  else None.

End Args.

(** ** A client that records its calls *)

Module TraceCatalog.

(** The calls of [main] on the client, with their arguments. *)
Inductive client_call :=
| CallSearch (q : string) (ty : search_type)
| CallTracks (owner playlist : string)
| CallRemove (owner playlist : string) (tr : list string)
| CallAdd (owner playlist : string) (tr : list string)
| CallName (owner playlist : string).

(** Every call succeeds and is written at the end of the record. *)
#[export] Instance trace_catalog : Catalog (list client_call) := {|
  add_result := unit;
  is_empty_list := fun _ => false;
  search := fun q ty w => (inr None, w ++ [CallSearch q ty]);
  user_playlist_tracks := fun o pl w => (inr 0%Z, w ++ [CallTracks o pl]);
  user_playlist_remove_all_occurrences_of_tracks :=
    fun o pl tr w => (inr tt, w ++ [CallRemove o pl tr]);
  user_playlist_add_tracks :=
    fun o pl tr w => (inr tt, w ++ [CallAdd o pl tr]);
  user_playlist_name := fun o pl w => (inr pl, w ++ [CallName o pl])
|}.

(** The calls that the loop body makes for one pair. *)
Definition calls_of_pair (owner : string) (verbose : bool)
    (p : list string * string) : list client_call :=
  [CallTracks owner p.2; CallRemove owner p.2 p.1; CallAdd owner p.2 p.1]
  ++ (if verbose then [CallName owner p.2; CallTracks owner p.2] else []).

End TraceCatalog.

(** * Properties *)

(** ** Strings *)

Module PyStrFacts.
Import PyStr.

Lemma chars_app (a b : string) :
  list_ascii_of_string (a +:+ b)
  = list_ascii_of_string a ++ list_ascii_of_string b.
Proof. induction a as [|c a IH]; simpl; [done | by rewrite IH]. Qed.

Lemma flush_words (Q : ascii → Prop) cur :
  Forall Q cur →
  Forall (λ w, w ≠ "" ∧ Forall Q (list_ascii_of_string w)) (flush cur).
Proof.
  intros Hcur. destruct cur as [|c cur]; [constructor |].
  unfold flush, join_chars. constructor; [| constructor].
  split; [discriminate |].
  by rewrite list_ascii_of_string_of_list_ascii.
Qed.

(** Every word of [split] is a non-empty run of non-space characters of
    the input. *)
Lemma split_go_words (P : ascii → Prop) s : ∀ cur,
  Forall (λ c, P c ∧ isspace c = false) cur →
  Forall P s →
  Forall (λ w, w ≠ "" ∧
               Forall (λ c, P c ∧ isspace c = false) (list_ascii_of_string w))
         (split_go cur s).
Proof.
  induction s as [|c s IH]; intros cur Hcur Hs; simpl.
  - by apply flush_words.
  - apply Forall_cons in Hs as [Hc Hs].
    destruct (isspace c) eqn:Hsp.
    + apply Forall_app. split; [by apply flush_words | by apply IH].
    + apply IH; [| done]. apply Forall_app. split; [done |].
      by repeat constructor.
Qed.

Lemma split_words (P : ascii → Prop) s :
  Forall P s →
  Forall (λ w, w ≠ "" ∧
               Forall (λ c, P c ∧ isspace c = false) (list_ascii_of_string w))
         (split s).
Proof. intros. by apply split_go_words. Qed.

Lemma join_space_chars (P : ascii → Prop) ws :
  P " "%char →
  Forall (λ w, Forall P (list_ascii_of_string w)) ws →
  Forall P (list_ascii_of_string (join_space ws)).
Proof.
  intros Hsp. induction 1 as [|w ws Hw Hws IH]; simpl; [constructor |].
  destruct ws as [|w' ws]; [done |].
  rewrite !chars_app. apply Forall_app. split; [done |].
  apply Forall_app. split; [by repeat constructor | done].
Qed.

Lemma slice_to_nonneg {A} (l : list A) (n : nat) :
  slice_to l (Z.of_nat n) = take n l.
Proof.
  unfold slice_to. destruct (Z.ltb_spec (Z.of_nat n) 0); [lia |].
  by rewrite Nat2Z.id.
Qed.

Lemma slice_to_sublist {A} (P : A → Prop) (l : list A) stop :
  Forall P l → Forall P (slice_to l stop).
Proof. intros. unfold slice_to. case_match; by apply Forall_take. Qed.

End PyStrFacts.

(** ** The title parser *)

Module TagParserFacts.
Import PyStr PyStrFacts TagParser.

(** Lower-casing neither makes nor unmakes a bracket or a dash. *)
Lemma lower_special c :
  is_opener (lower c) = is_opener c ∧
  is_closer (lower c) = is_closer c ∧
  (lower c =? "-")%char = (c =? "-")%char ∧
  (is_opener c || is_closer c = true → lower c = c).
Proof.
  destruct c as [[] [] [] [] [] [] [] []]; vm_compute;
    repeat split; intros; congruence.
Qed.

Lemma elem_of_add_tags tg ts w :
  w ∈ add_tags tg ts ↔ w ∈ ts ∨ w ∈ split tg.
Proof.
  unfold add_tags. generalize (split tg) as l. intros l. revert ts.
  induction l as [|x l IH]; intros ts; simpl.
  - split; [by left | intros [H | H]; [done | by apply elem_of_nil in H]].
  - rewrite IH, elem_of_union, elem_of_singleton, elem_of_cons. tauto.
Qed.

Lemma scan_snoc st s c :
  foldl scan_step st (s ++ [c]) = scan_step (foldl scan_step st s) c.
Proof. apply foldl_snoc. Qed.

Lemma scan_app st a b :
  scan st (a +:+ b) = scan (scan st a) b.
Proof. unfold scan. by rewrite chars_app, foldl_app. Qed.

(** A property kept by every turn of the loop holds after the scan. *)
Lemma scan_invariant (I : scan_state → Prop) :
  (∀ st c, I st → I (scan_step st c)) →
  ∀ title st, I st → I (scan st title).
Proof.
  intros Hstep title st. unfold scan.
  generalize (list_ascii_of_string title) as l. intros l. revert st.
  induction l as [|c l IH]; intros st Hst; simpl; [done |].
  apply IH. by apply Hstep.
Qed.

Lemma scan_ok_init : scan_ok scan_init.
Proof.
  split; [constructor | split; [| constructor]].
  intros w Hw. by apply not_elem_of_empty in Hw.
Qed.

Lemma Forall_snoc {A} (P : A → Prop) l x :
  Forall P l → P x → Forall P (l ++ [x]).
Proof. intros. apply Forall_app. by repeat constructor. Qed.

Lemma scan_ok_step st c : scan_ok st → scan_ok (scan_step st c).
Proof.
  intros (Htag & Htags & Hq). unfold scan_step.
  destruct (is_opener (lower c)) eqn:Hop.
  { destruct (add_to_tag st); (split; [| split]); simpl; try done.
    apply Forall_snoc; [done |].
    intros Heq. rewrite Heq in Hop. discriminate. }
  destruct (is_closer (lower c)) eqn:Hcl.
  { destruct (add_to_tag st); [| done].
    case_decide; (split; [| split]); simpl; try done.
    - intros w [Hw | Hw]%elem_of_add_tags; [by apply Htags |].
      pose proof (split_words tag_char (tag st) Htag) as Hall.
      rewrite Forall_forall in Hall. by apply Hall.
    - apply Forall_snoc; [done |].
      intros Heq. rewrite Heq in Hcl. discriminate. }
  destruct (negb (lower c =? "-")%char) eqn:Hd; [| done].
  apply negb_true_iff, Ascii.eqb_neq in Hd.
  destruct (add_to_tag st); (split; [| split]); simpl; try done.
  - by apply Forall_snoc.
  - by apply Forall_snoc.
Qed.

Lemma scan_ok_scan title : scan_ok (scan scan_init title).
Proof.
  apply scan_invariant; [apply scan_ok_step | apply scan_ok_init].
Qed.

End TagParserFacts.

(** ** Claims about the title parser *)

Module TagParserClaims.
Import PyStr PyStrFacts TagParser TagParserFacts.

(** C5, as the code has it: for every title, every member of the tag set
    returned by [filter_tags] is a non-empty token without white space
    and without a dash.  (A token of punctuation only can be a member,
    see [tags_may_be_punctuation_only].) *)
Theorem tags_are_words (ft_set : gset string) (title w : string) :
  w ∈ (filter_tags ft_set title).2 →
  w ≠ "" ∧ ∀ c, has_char c w → isspace c = false ∧ c ≠ "-"%char.
Proof.
  unfold filter_tags. simpl. intros Hw.
  destruct (scan_ok_scan title) as (_ & Htags & _).
  destruct (Htags w Hw) as [Hne Hall]. split; [done |].
  intros c Hc. rewrite Forall_forall in Hall.
  destruct (Hall c Hc) as [Hdash Hsp]. done.
Qed.

Lemma tags_are_words_witness :
  "prod." ∈ (filter_tags ∅ "Song [prod. by X]").2 ∧
  ("prod." ≠ "" ∧
   ∀ c, has_char c "prod." → isspace c = false ∧ c ≠ "-"%char).
Proof.
  assert (H : "prod." ∈ (filter_tags ∅ "Song [prod. by X]").2)
    by (vm_compute; reflexivity).
  split; [exact H | exact (tags_are_words ∅ "Song [prod. by X]" "prod." H)].
Defined.

(** C5 as stated fails: the tag ["!!!"] of the title ["New Song [!!!]"]
    is a punctuation-only token. *)
Lemma tags_may_be_punctuation_only :
  "!!!" ∈ (filter_tags ∅ "New Song [!!!]").2 ∧
  punctuation_only "!!!" = true.
Proof. split; vm_compute; reflexivity. Qed.

Lemma scan_step_opener st c :
  is_opener c = true →
  scan_step st c =
    if add_to_tag st
    then ScanState (tags st) (filtered_title st) (tag st ++ [c])
                   (last_pun st) true
    else ScanState (tags st) (filtered_title st) (tag st) (Some c) true.
Proof.
  intros Hop. unfold scan_step.
  destruct (lower_special c) as (_ & _ & _ & Hlow).
  rewrite Hlow by (by rewrite Hop). by rewrite Hop.
Qed.

Lemma closer_not_opener c : is_closer c = true → is_opener c = false.
Proof.
  unfold is_closer, is_opener.
  intros [->%Ascii.eqb_eq | ->%Ascii.eqb_eq]%orb_true_iff; reflexivity.
Qed.

Lemma scan_step_closer st c :
  is_closer c = true →
  scan_step st c =
    if add_to_tag st then
      if decide (pun_dict !! c = last_pun st) then
        ScanState (add_tags (tag st) (tags st)) (filtered_title st) []
                  (last_pun st) false
      else
        ScanState (tags st) (filtered_title st) (tag st ++ [c])
                  (last_pun st) true
    else st.
Proof.
  intros Hcl. unfold scan_step.
  destruct (lower_special c) as (_ & _ & _ & Hlow).
  rewrite Hlow by (rewrite Hcl; apply orb_true_r).
  by rewrite (closer_not_opener c Hcl), Hcl.
Qed.

(** C10: for every title, balanced or not, the query returned by
    [filter_tags] contains none of the four bracket characters; an
    opener starts a tag or, inside a tag, goes to the tag buffer, and a
    closer met outside a tag leaves every variable of the scan as it
    was. *)
Theorem query_has_no_bracket (ft_set : gset string) (title : string) :
  (∀ c, has_char c (filter_tags ft_set title).1 →
        c ≠ "["%char ∧ c ≠ "]"%char ∧ c ≠ "("%char ∧ c ≠ ")"%char) ∧
  (∀ st c, is_opener c = true →
     scan_step st c =
       if add_to_tag st
       then ScanState (tags st) (filtered_title st) (tag st ++ [c])
                      (last_pun st) true
       else ScanState (tags st) (filtered_title st) (tag st) (Some c) true) ∧
  (∀ st c, is_closer c = true → add_to_tag st = false →
     scan_step st c = st).
Proof.
  split; [| split].
  - intros c Hc. unfold filter_tags, has_char in Hc. simpl in Hc.
    destruct (scan_ok_scan title) as (_ & _ & Hq).
    assert (Hall : Forall not_bracket
              (list_ascii_of_string
                 (join_space
                    (ft_truncate ft_set
                       (split (filtered_title (scan scan_init title))))))).
    { apply join_space_chars; [by split |].
      unfold ft_truncate. apply slice_to_sublist.
      eapply Forall_impl; [apply (split_words not_bracket _ Hq) |].
      intros w [_ Hw]. eapply Forall_impl; [exact Hw |]. by intros ? [? _]. }
    rewrite Forall_forall in Hall. destruct (Hall c Hc) as [Ho Hcl].
    repeat split; intros ->; discriminate.
  - intros st c Hop. by apply scan_step_opener.
  - intros st c Hcl Hout. rewrite scan_step_closer by done. by rewrite Hout.
Qed.

(** *** The feature markers *)

Lemma ft_loop_first ft_set ws : ∀ k i n w,
  ws !! n = Some w → w ∈ ft_set →
  (∀ j w', (j < n)%nat → ws !! j = Some w' → w' ∉ ft_set) →
  ft_loop ft_set ws k i = (k + Z.of_nat n - 1)%Z.
Proof.
  induction ws as [|x ws IH]; intros k i n w Hn Hw Hbefore; [done |].
  destruct n as [|n]; simpl in *.
  - injection Hn as ->. rewrite decide_True by done. lia.
  - rewrite decide_False by (apply (Hbefore 0%nat); [lia | done]).
    rewrite (IH _ _ n w Hn Hw); [lia |].
    intros j w' Hj Hw'. apply (Hbefore (S j)); [lia | done].
Qed.

Lemma ft_loop_none ft_set ws : ∀ k i,
  (∀ w, w ∈ ws → w ∉ ft_set) →
  ft_loop ft_set ws k i =
    match ws with
    | [] => i
    | _ => (k + Z.of_nat (length ws) - 1)%Z
    end.
Proof.
  induction ws as [|x ws IH]; intros k i Hnone; [done |].
  simpl ft_loop. rewrite decide_False by (apply Hnone; by left).
  rewrite IH by (intros w Hw; apply Hnone; by right).
  destruct ws; simpl length; lia.
Qed.

(** C7: if the first marker word of the sequence is at position [i],
    the truncation keeps exactly the words before it; without a marker
    the sequence is kept as it is; the kept words are joined by single
    spaces; ["drake ft future"] gives ["drake"] and ["no markers here"]
    is returned unchanged for the marker set {"ft"}. *)
Theorem ft_truncate_spec (ft_set : gset string) (words : list string) :
  (∀ i w, words !! i = Some w → w ∈ ft_set →
     (∀ j w', (j < i)%nat → words !! j = Some w' → w' ∉ ft_set) →
     ft_truncate ft_set words = take i words) ∧
  ((∀ w, w ∈ words → w ∉ ft_set) → ft_truncate ft_set words = words) ∧
  (∀ title,
     (filter_tags ft_set title).1 =
     join_space
       (ft_truncate ft_set (split (filtered_title (scan scan_init title))))) ∧
  filter_tags {[ "ft" ]} "drake ft future" = ("drake", ∅) ∧
  filter_tags {[ "ft" ]} "no markers here" = ("no markers here", ∅).
Proof.
  split; [| split; [| split; [| split]]].
  - intros i w Hi Hw Hbefore. unfold ft_truncate.
    rewrite (ft_loop_first ft_set words 0 0 i w Hi Hw Hbefore).
    replace (0 + Z.of_nat i - 1 + 1)%Z with (Z.of_nat i) by lia.
    apply slice_to_nonneg.
  - intros Hnone. unfold ft_truncate.
    rewrite (ft_loop_none ft_set words 0 0 Hnone).
    destruct words as [|x ws]; [done |].
    replace (0 + Z.of_nat (length (x :: ws)) - 1 + 1)%Z
      with (Z.of_nat (length (x :: ws))) by lia.
    rewrite slice_to_nonneg. apply firstn_all.
  - reflexivity.
  - vm_compute. reflexivity.
  - vm_compute. reflexivity.
Qed.

Lemma ft_truncate_spec_witness :
  ft_truncate {[ "ft" ]} ["drake"; "ft"; "future"] = ["drake"] ∧
  ft_truncate {[ "ft" ]} ["no"; "markers"; "here"]
    = ["no"; "markers"; "here"].
Proof.
  split.
  - apply (proj1 (ft_truncate_spec {[ "ft" ]} ["drake"; "ft"; "future"])
             1%nat "ft"); [reflexivity | by apply elem_of_singleton |].
    intros [|j] w' Hj Hw'; [| lia].
    injection Hw' as <-. by rewrite elem_of_singleton.
  - apply (proj1 (proj2 (ft_truncate_spec {[ "ft" ]}
                           ["no"; "markers"; "here"]))).
    intros w Hw. rewrite elem_of_singleton.
    repeat (apply elem_of_cons in Hw as [-> | Hw]; [done |]).
    by apply elem_of_nil in Hw.
Defined.

(** *** Tags that are never closed *)

Lemma scan_step_in_tag st o c :
  add_to_tag st = true → last_pun st = Some o →
  pun_dict !! c ≠ Some o →
  let st' := scan_step st c in
  tags st' = tags st ∧ filtered_title st' = filtered_title st ∧
  add_to_tag st' = true ∧ last_pun st' = Some o.
Proof.
  intros Hin Ho Hc. simpl.
  destruct (is_opener c) eqn:Hop.
  { rewrite scan_step_opener by done. by rewrite Hin. }
  destruct (is_closer c) eqn:Hcl.
  { rewrite scan_step_closer by done. rewrite Hin, Ho.
    by rewrite decide_False by done. }
  unfold scan_step.
  destruct (lower_special c) as (Hop' & Hcl' & _ & _).
  rewrite Hop', Hop, Hcl', Hcl, Hin.
  by destruct (negb _).
Qed.

Lemma scan_in_tag o rest : ∀ st,
  add_to_tag st = true → last_pun st = Some o →
  (∀ c, c ∈ rest → pun_dict !! c ≠ Some o) →
  let st' := foldl scan_step st rest in
  tags st' = tags st ∧ filtered_title st' = filtered_title st ∧
  add_to_tag st' = true ∧ last_pun st' = Some o.
Proof.
  induction rest as [|c rest IH]; intros st Hin Ho Hrest; simpl; [done |].
  destruct (scan_step_in_tag st o c Hin Ho) as (Ht & Hq & Hin' & Ho').
  { apply Hrest. by left. }
  destruct (IH (scan_step st c) Hin' Ho') as (Ht2 & Hq2 & Hin2 & Ho2).
  { intros c' Hc'. apply Hrest. by right. }
  simpl in *. by rewrite Ht2, Hq2, Ht, Hq.
Qed.

(** C8: a closer that does not match the opener of the open tag goes to
    the tag buffer and the tag stays open; and if no matching closer
    follows the opener up to the end of the title, the result is the one
    for the title cut before the opener: what stands in the tag reaches
    neither the query nor the tag set. *)
Theorem mismatched_closer_keeps_tag_open :
  (∀ st o c,
     add_to_tag st = true → last_pun st = Some o →
     is_closer c = true → pun_dict !! c ≠ Some o →
     scan_step st c =
       ScanState (tags st) (filtered_title st) (tag st ++ [c])
                 (last_pun st) true) ∧
  (∀ ft_set before o inside,
     add_to_tag (scan scan_init before) = false →
     is_opener o = true →
     (∀ c, has_char c inside → pun_dict !! c ≠ Some o) →
     filter_tags ft_set (before +:+ String o inside)
     = filter_tags ft_set before).
Proof.
  split.
  - intros st o c Hin Ho Hcl Hc.
    rewrite scan_step_closer by done. rewrite Hin, Ho.
    by rewrite decide_False by done.
  - intros ft_set before o inside Hout Hop Hinside.
    unfold filter_tags. rewrite scan_app.
    set (st := scan scan_init before) in *.
    unfold scan. cbn [list_ascii_of_string foldl].
    rewrite (scan_step_opener st o Hop), Hout.
    match goal with
    | |- context [foldl scan_step ?s ?l] =>
        destruct (scan_in_tag o l s eq_refl eq_refl Hinside)
          as (Ht & Hq & _ & _)
    end.
    simpl in Ht, Hq. by rewrite Ht, Hq.
Qed.

Lemma mismatched_closer_keeps_tag_open_witness :
  filter_tags ∅ ("Song " +:+ String "(" "prod. by X]")
  = filter_tags ∅ "Song ".
Proof.
  apply (proj2 mismatched_closer_keeps_tag_open ∅ "Song " "("%char
           "prod. by X]"); [reflexivity | reflexivity |].
  intros c Hc. unfold has_char in Hc. simpl in Hc.
  repeat (apply elem_of_cons in Hc as [-> | Hc]; [by vm_compute |]).
  by apply elem_of_nil in Hc.
Defined.

End TagParserClaims.

(** ** Claims about the resolver *)

Module ResolverClaims.
Import Response Resolver.

Lemma first_url_skips before : ∀ rest,
  Forall (λ it, spotify_link it = None) before →
  first_url (before ++ rest) = first_url rest.
Proof.
  induction before as [|it before IH]; intros rest Hnone; [done |].
  apply Forall_cons in Hnone as [Hit Hbefore]. simpl.
  unfold spotify_link in Hit.
  destruct (external_urls it) as [urls|]; [rewrite Hit |]; by apply IH.
Qed.

Lemma first_url_head it rest u :
  spotify_link it = Some u → first_url (it :: rest) = Some u.
Proof.
  unfold spotify_link. simpl.
  destruct (external_urls it) as [urls|]; [| done]. by intros ->.
Qed.

(** C6, as the code has it: the resolver returns the spotify link of the
    first candidate that carries one, and none when no candidate carries
    one or when the response has no [tracks] or no [items]; when the first
    candidate carries a link, that link is returned. *)
Theorem extract_track_url_first_link (its : list item) :
  let search := SearchResponse (Some (TracksPage (Some its))) in
  (∀ before it after u,
     its = before ++ it :: after →
     Forall (λ x, spotify_link x = None) before →
     spotify_link it = Some u →
     extract_track_url search = Some u) ∧
  (Forall (λ x, spotify_link x = None) its →
   extract_track_url search = None) ∧
  (∀ it rest u, its = it :: rest → spotify_link it = Some u →
     extract_track_url search = Some u) ∧
  extract_track_url (SearchResponse None) = None ∧
  extract_track_url (SearchResponse (Some (TracksPage None))) = None.
Proof.
  simpl. unfold extract_track_url. simpl. repeat split.
  - intros before it after u -> Hbefore Hit.
    rewrite first_url_skips by done. by apply first_url_head.
  - intros Hnone. rewrite <- (app_nil_r its).
    by rewrite first_url_skips.
  - intros it rest u -> Hit. by apply first_url_head.
Qed.

Lemma extract_track_url_first_link_witness :
  extract_track_url
    (SearchResponse (Some (TracksPage (Some
       [Item None;
        Item (Some {[ "spotify" := "https://open.spotify.com/track/2" ]});
        Item (Some {[ "spotify" := "https://open.spotify.com/track/3" ]})]))))
  = Some "https://open.spotify.com/track/2".
Proof.
  apply (proj1 (extract_track_url_first_link _) [Item None]
           (Item (Some {[ "spotify" := "https://open.spotify.com/track/2" ]}))
           [Item (Some {[ "spotify" := "https://open.spotify.com/track/3" ]})]);
    [reflexivity | by repeat constructor | reflexivity].
Defined.

(** C6 as stated fails: a response whose first candidate carries no
    spotify link resolves to the link of the second one, and a response
    whose only candidate carries none resolves to nothing. *)
Lemma first_candidate_need_not_win :
  let first := Item (Some {[ "youtube" := "https://youtu.be/1" ]}) in
  let second :=
    Item (Some {[ "spotify" := "https://open.spotify.com/track/2" ]}) in
  spotify_link first = None ∧
  extract_track_url (SearchResponse (Some (TracksPage (Some [first; second]))))
  = spotify_link second ∧
  spotify_link second = Some "https://open.spotify.com/track/2" ∧
  extract_track_url (SearchResponse (Some (TracksPage (Some [first]))))
  = None.
Proof. repeat split. Qed.

End ResolverClaims.

(** ** The pass over the feed *)

Module FeedFacts.
Import PyStr Resolver Feed.

Section WithCatalog.
Context {W : Type} `{Cat : Catalog W}.
Variable ft_set : gset string.
Variables (fresh : bool) (threshold : option Z) (includeAlbums verbose : bool).

Abbreviation post_step :=
  (post_step ft_set fresh threshold includeAlbums verbose).
Abbreviation feed_loop :=
  (feed_loop ft_set fresh threshold includeAlbums verbose).
Abbreviation resolve_all :=
  (resolve_all ft_set fresh threshold includeAlbums verbose).
Abbreviation collect :=
  (collect ft_set fresh threshold includeAlbums verbose).

Lemma print_post_ok sub (m : machine W) :
  ∃ out, print_post sub m = (inr tt, Machine (world m) (stdout m ++ out) (results m)).
Proof.
  eexists [_; _; _; _]. unfold print_post, bind, print. simpl.
  by rewrite <- !app_assoc.
Qed.

(** A post adds its tracks at the end of the list it is given. *)
Lemma post_step_appends sub tracks (m : machine W) :
  post_step sub tracks m = appended tracks (post_step sub [] m).
Proof.
  unfold Feed.post_step, addSpotifyTrack, search_title, appended.
  unfold print_post, bind, ret, raise, call, print.
  destruct (TagParser.filter_tags _ _) as [q tg].
  repeat (case_match; simplify_eq; simpl in *; try done);
    by rewrite ?app_nil_r.
Qed.

(** A post adds at most one track. *)
Lemma post_step_at_most_one sub (m m' : machine W) new :
  post_step sub [] m = (inr new, m') → (length new ≤ 1)%nat.
Proof.
  unfold Feed.post_step, addSpotifyTrack, search_title.
  unfold print_post, bind, ret, raise, call, print.
  destruct (TagParser.filter_tags _ _) as [q tg].
  repeat (case_match; simplify_eq; simpl in *; try done);
    intros; simplify_eq; simpl; lia.
Qed.

(** The loop with the overflow test ends as the loop without it, with the
    same tracks in the same order; a sealed batch holds 91 tracks and the
    open one at most 90. *)
Lemma feed_loop_resolve subs : ∀ tracks arr (m : machine W) all m',
  (length tracks ≤ 90)%nat →
  Forall (λ b, length b = 91%nat) arr →
  resolve_all subs (concat arr ++ tracks) m = (inr all, m') →
  ∃ tracks' arr',
    feed_loop subs tracks arr m = (inr (tracks', arr'), m') ∧
    concat arr' ++ tracks' = all ∧
    (length tracks' ≤ 90)%nat ∧
    Forall (λ b, length b = 91%nat) arr'.
Proof.
  induction subs as [|sub subs IH]; intros tracks arr m all m' Hlen Harr.
  - simpl. unfold ret. intros [= <- <-]. by exists tracks, arr.
  - simpl. unfold bind at 1 2.
    rewrite (post_step_appends sub tracks), (post_step_appends sub (_ ++ _)).
    destruct (post_step sub [] m) as [[e|new] m1] eqn:Hstep; simpl; [done |].
    pose proof (post_step_at_most_one _ _ _ _ Hstep) as Hnew.
    assert (Hl : length (tracks ++ new) = (length tracks + length new)%nat)
      by apply length_app.
    destruct (Z.ltb_spec 90 (Z.of_nat (length (tracks ++ new)))) as [Hover|Hfit].
    + intros Hall. apply (IH [] (arr ++ [tracks ++ new])); [simpl; lia | |].
      * apply Forall_app. split; [done |]. repeat constructor. lia.
      * by rewrite concat_app, app_nil_r, <- app_assoc in *; simpl;
          rewrite app_nil_r.
    + intros Hall. apply (IH (tracks ++ new) arr); [lia | done |].
      by rewrite app_assoc.
Qed.

End WithCatalog.
End FeedFacts.

(** ** Claims about the pass over the feed *)

Module FeedClaims.
Import PyStr Resolver Feed FeedFacts MemCatalog Samples.

(** C1, as the code has it: the pass over the feed cuts the resolved
    tracks into consecutive batches that keep the feed order; a batch is
    sealed once it holds more than 90 tracks, so every batch but the last
    holds exactly 91 tracks and the last holds between 1 and 91; no batch
    is empty. *)
Theorem batches_partition_the_tracks {W : Type} `{Cat : Catalog W}
    (ft_set : gset string) (fresh : bool) (threshold : option Z)
    (includeAlbums verbose : bool) (subs : list post)
    (m m' : machine W) (all : list string) :
  resolve_all ft_set fresh threshold includeAlbums verbose subs [] m
  = (inr all, m') →
  ∃ tracks tracks_array,
    collect ft_set fresh threshold includeAlbums verbose subs m
    = (inr (tracks, tracks_array), m') ∧
    concat tracks_array = all ∧
    Forall (λ b, (1 ≤ length b ≤ 91)%nat) tracks_array ∧
    (∀ i b, tracks_array !! i = Some b →
            (S i < length tracks_array)%nat → length b = 91%nat).
Proof.
  intros Hall.
  destruct (feed_loop_resolve ft_set fresh threshold includeAlbums verbose
              subs [] [] m all m') as (tracks & arr & Hloop & Hcat & Hlen & Harr);
    [simpl; lia | constructor | done |].
  assert (Hsealed : Forall (λ b, (1 ≤ length b ≤ 91)%nat) arr).
  { eapply Forall_impl; [exact Harr |]. simpl. lia. }
  unfold collect, bind. rewrite Hloop.
  destruct (Z.ltb_spec 0 (Z.of_nat (length tracks))) as [Hsome|Hnone].
  - exists tracks, (arr ++ [tracks]). unfold ret. split; [done |].
    split; [by rewrite concat_app; simpl; rewrite app_nil_r |].
    split; [apply Forall_app; split; [done | constructor; [lia | constructor]] |].
    intros i b Hi Hlast. rewrite length_app in Hlast. simpl in Hlast.
    rewrite lookup_app_l in Hi by lia.
    rewrite Forall_forall in Harr. apply Harr.
    by eapply list_elem_of_lookup_2.
  - exists tracks, arr. unfold ret. split; [done |].
    destruct tracks; [| simpl in Hnone; lia].
    rewrite app_nil_r in Hcat. split; [done |]. split; [done |].
    intros i b Hi _. rewrite Forall_forall in Harr. apply Harr.
    by eapply list_elem_of_lookup_2.
Qed.

Lemma batches_partition_the_tracks_witness :
  resolve_all markers true None false false feed95 [] (start one_playlist)
  = (inr tracks95, start one_playlist) ∧
  ∃ tracks tracks_array,
    collect markers true None false false feed95 (start one_playlist)
    = (inr (tracks, tracks_array), start one_playlist) ∧
    concat tracks_array = tracks95 ∧
    Forall (λ b, (1 ≤ length b ≤ 91)%nat) tracks_array ∧
    (∀ i b, tracks_array !! i = Some b →
            (S i < length tracks_array)%nat → length b = 91%nat).
Proof.
  assert (H : resolve_all markers true None false false feed95 []
                (start one_playlist) = (inr tracks95, start one_playlist))
    by (vm_compute; reflexivity).
  split; [exact H |].
  exact (batches_partition_the_tracks markers true None false false feed95
           (start one_playlist) (start one_playlist) tracks95 H).
Defined.

(** C1 as stated fails: ninety-five posts that resolve to ninety-five
    tracks are cut into a batch of 91 and a batch of 4, so a batch holds
    more than 90 tracks and the batches are not 90 and 5. *)
Lemma ninety_five_tracks_in_batches_of_91_and_4 :
  length tracks95 = 95%nat ∧
  outcome (resolve_all markers true None false false feed95 []
             (start one_playlist)) = inr tracks95 ∧
  batch_sizes (collect markers true None false false feed95
                 (start one_playlist)) = Some [91; 4]%nat ∧
  printed_by_sync (User "me" ["p"])
    (collect markers true None false false feed95 (start one_playlist))
  = [NewTracksAdded "mix" 91; BlankLine; NewTracksAdded "mix" 4; BlankLine].
Proof. repeat split; vm_compute; reflexivity. Qed.

(** The direct links: a post below the threshold leaves the list of
    tracks as it was. *)
Lemma addSpotifyTrack_discards_low_score {W : Type} `{Cat : Catalog W}
    (fresh : bool) (threshold : option Z) (includeAlbums verbose : bool)
    (sub : post) (tracks : list string) (m : machine W) :
  below_threshold threshold (score sub) = true →
  ∃ m', addSpotifyTrack fresh threshold includeAlbums verbose sub tracks m
        = (inr tracks, m').
Proof.
  intros Hlow. unfold addSpotifyTrack, print_post, bind, ret, print.
  rewrite Hlow. repeat (case_match; simplify_eq; simpl in *); by eexists.
Qed.

(** C2 at its failing input: with a threshold of 100, a post with score 1
    on another domain is searched by title and its track is queued, while
    the same score on a direct link is discarded. *)
Theorem low_score_post_is_queued :
  below_threshold (Some 100%Z) (score low_score_post) = true ∧
  outcome (collect markers false (Some 100%Z) false false [low_score_post]
             (start with_index))
  = inr (["https://open.spotify.com/track/abc"],
         [["https://open.spotify.com/track/abc"]]) ∧
  outcome (collect markers false (Some 100%Z) false false [low_score_link]
             (start with_index))
  = inr ([], []).
Proof. repeat split; vm_compute; reflexivity. Qed.

End FeedClaims.

(** ** The pass over the playlists *)

Module SyncFacts.
Import Sync.

Section WithCatalog.
Context {W : Type} `{Cat : Catalog W}.
Variable u : user.
Variable verbose : bool.

Lemma for_pairs_app ps qs (m : machine W) :
  for_pairs u verbose (ps ++ qs) m
  = (for_pairs u verbose ps ;; for_pairs u verbose qs) m.
Proof.
  revert m. induction ps as [|[tr pl] ps IH]; intros m; simpl.
  - reflexivity.
  - unfold bind in *. destruct (sync_pair u verbose tr pl m) as [[e|[]] m1].
    + reflexivity.
    + apply IH.
Qed.

Lemma for_playlists_pairs tr pls (m : machine W) :
  for_playlists u verbose tr pls m
  = for_pairs u verbose ((fun pl => (tr, pl)) <$> pls) m.
Proof.
  revert m. induction pls as [|pl pls IH]; intros m; simpl; [done |].
  unfold bind. destruct (sync_pair u verbose tr pl m) as [[e|[]] m1]; [done |].
  apply IH.
Qed.

(** The two nested loops visit the pairs in the order of [pairs]. *)
Lemma for_batches_pairs tracks_array (m : machine W) :
  for_batches u verbose tracks_array m
  = for_pairs u verbose (pairs u tracks_array) m.
Proof.
  revert m. induction tracks_array as [|tr trs IH]; intros m; [done |].
  change (pairs u (tr :: trs))
    with (((fun pl => (tr, pl)) <$> playlists u) ++ pairs u trs).
  rewrite for_pairs_app. simpl. unfold bind.
  rewrite for_playlists_pairs.
  destruct (for_pairs u verbose _ m) as [[e|[]] m1]; [done |].
  apply IH.
Qed.

(** A pair whose removal or addition raises: the loop body raises the
    same exception, prints nothing and leaves [results] as it was. *)
Lemma sync_pair_fails tr pl (m : machine W) e w' :
  remove_or_add_fails u tr pl (world m) e w' →
  sync_pair u verbose tr pl m = (inl e, Machine w' (stdout m) (results m)).
Proof.
  intros (total & w1 & Hread & [Hrem | (w2 & Hrem & Hadd)]);
    unfold sync_pair, bind, call; rewrite Hread; simpl; rewrite Hrem; simpl;
    [done |].
  by rewrite Hadd.
Qed.

End WithCatalog.
End SyncFacts.

(** ** The in-memory catalog *)

Module MemCatalogFacts.
Import Sync SyncFacts MemCatalog.

Lemma remove_all_app tr X Y :
  remove_all tr (X ++ Y) = remove_all tr X ++ remove_all tr Y.
Proof. apply filter_app. Qed.

Lemma remove_all_kept tr X : Forall (λ x, x ∉ tr) (remove_all tr X).
Proof.
  apply Forall_forall. intros x Hx.
  by apply list_elem_of_filter in Hx as [Hx _].
Qed.

Lemma remove_all_id tr X : Forall (λ x, x ∉ tr) X → remove_all tr X = X.
Proof.
  unfold remove_all. induction 1 as [|x X Hx HX IH]; [done |].
  rewrite filter_cons, decide_True by done. by rewrite IH.
Qed.

Lemma remove_all_gone tr X : Forall (λ x, x ∈ tr) X → remove_all tr X = [].
Proof.
  unfold remove_all. induction 1 as [|x X Hx HX IH]; [done |].
  rewrite filter_cons, decide_False by tauto. done.
Qed.

Lemma remove_all_twice b c X :
  remove_all c (remove_all b X) = remove_all (b ++ c) X.
Proof.
  unfold remove_all. induction X as [|x X IH]; [done |].
  rewrite (filter_cons _ x X), (filter_cons (λ t, t ∉ b ++ c) x X).
  destruct (decide (x ∉ b)) as [Hb|Hb].
  - rewrite filter_cons, IH.
    destruct (decide (x ∉ c)) as [Hc|Hc].
    + rewrite decide_True; [done |]. rewrite elem_of_app. tauto.
    + rewrite decide_False; [done |]. rewrite elem_of_app. tauto.
  - rewrite IH, decide_False; [done |]. rewrite elem_of_app. tauto.
Qed.

Lemma readd_all_cons b trs L :
  readd_all (b :: trs) L = readd_all trs (readd b L).
Proof. reflexivity. Qed.

(** Tracks outside the batches stay where they are, in front of what the
    batches leave behind. *)
Lemma readd_all_app trs : ∀ X Y,
  readd_all trs (X ++ Y) = remove_all (concat trs) X ++ readd_all trs Y.
Proof.
  induction trs as [|b trs IH]; intros X Y.
  - simpl. rewrite remove_all_id; [done |].
    apply Forall_forall. intros x _. apply not_elem_of_nil.
  - rewrite !readd_all_cons. unfold readd.
    rewrite remove_all_app, <- app_assoc, IH.
    by rewrite remove_all_twice.
Qed.

Lemma readd_all_elems trs : ∀ Y x,
  x ∈ readd_all trs Y → x ∈ Y ∨ x ∈ concat trs.
Proof.
  induction trs as [|b trs IH]; intros Y x; [by left |].
  rewrite readd_all_cons. simpl concat.
  intros [Hx | Hx]%IH; [| right; apply elem_of_app; by right].
  unfold readd in Hx. apply elem_of_app in Hx as [Hx | Hx].
  - left. by apply list_elem_of_filter in Hx as [_ Hx].
  - right. apply elem_of_app. by left.
Qed.

(** Remove-then-add of the same batches a second time changes nothing. *)
Lemma readd_all_idem trs L :
  readd_all trs (readd_all trs L) = readd_all trs L.
Proof.
  assert (Hnew : remove_all (concat trs) (readd_all trs []) = []).
  { apply remove_all_gone, Forall_forall. intros x Hx.
    apply readd_all_elems in Hx as [Hx | Hx]; [| done].
    by apply elem_of_nil in Hx. }
  pose proof (readd_all_app trs (readd_all trs []) []) as Hnew'.
  rewrite app_nil_r, Hnew in Hnew'. simpl in Hnew'.
  rewrite <- (app_nil_r L), !readd_all_app.
  by rewrite remove_all_id, Hnew' by apply remove_all_kept.
Qed.

Lemma set_tracks_compose f g p :
  set_tracks f (set_tracks g p) = set_tracks (f ∘ g) p.
Proof. by destruct p. Qed.

Lemma lookup_apply_pair p w q :
  lists (apply_pair p w) !! q
  = (if decide (p.2 = q) then set_tracks (readd p.1) else id) <$> lists w !! q.
Proof.
  unfold apply_pair. simpl.
  destruct (decide (p.2 = q)) as [<-|Hne].
  - by rewrite lookup_alter_eq.
  - rewrite lookup_alter_ne by done. by destruct (lists w !! q).
Qed.

Lemma writable_apply_pair p w q : writable (apply_pair p w) q = writable w q.
Proof.
  unfold writable. rewrite lookup_apply_pair.
  destruct (lists w !! q) as [x|]; [| done]. by case_decide.
Qed.

Lemma apply_pairs_cons p ps w :
  apply_pairs (p :: ps) w = apply_pairs ps (apply_pair p w).
Proof. reflexivity. Qed.

Lemma writable_apply_pairs ps : ∀ w q,
  writable (apply_pairs ps w) q = writable w q.
Proof.
  induction ps as [|p ps IH]; intros w q; [done |].
  by rewrite apply_pairs_cons, IH, writable_apply_pair.
Qed.

Lemma live_ext w w' ps :
  (∀ q, writable w' q = writable w q) → live w' ps = live w ps.
Proof.
  intros Hw. induction ps as [|[tr pl] ps IH]; simpl; [done |].
  by rewrite Hw, IH.
Qed.

(** The playlist [q] after a sequence of pairs. *)
Lemma lookup_apply_pairs ps : ∀ w q,
  lists (apply_pairs ps w) !! q
  = set_tracks (readd_all (batches_for q ps)) <$> lists w !! q.
Proof.
  induction ps as [|[tr pl] ps IH]; intros w q.
  - simpl. destruct (lists w !! q) as [[]|]; done.
  - rewrite apply_pairs_cons, IH, lookup_apply_pair. unfold batches_for. simpl.
    rewrite filter_cons. simpl.
    destruct (lists w !! q) as [x|]; [simpl | by case_decide].
    case_decide; simpl; [| done].
    by rewrite set_tracks_compose.
Qed.

Lemma index_apply_pairs ps : ∀ w, index (apply_pairs ps w) = index w.
Proof.
  induction ps as [|p ps IH]; intros w; [done |].
  by rewrite apply_pairs_cons, IH.
Qed.

Lemma service_eq w w' :
  lists w = lists w' → index w = index w' → w = w'.
Proof. destruct w, w'. simpl. by intros -> ->. Qed.

Lemma apply_pairs_idem ps w :
  apply_pairs ps (apply_pairs ps w) = apply_pairs ps w.
Proof.
  apply service_eq; [| by rewrite !index_apply_pairs].
  apply map_eq. intros q. rewrite !lookup_apply_pairs.
  destruct (lists w !! q) as [x|]; [simpl | done].
  rewrite set_tracks_compose. destruct x. unfold set_tracks. simpl.
  by rewrite readd_all_idem.
Qed.

Section Runs.
Variable u : user.
Variable verbose : bool.

(** The loop body on the in-memory catalog. *)
Lemma mem_sync_pair tr pl (m : machine service) :
  if writable (world m) pl
  then ∃ out,
         sync_pair u verbose tr pl m
         = (inr tt, Machine (apply_pair (tr, pl) (world m))
                            (stdout m ++ out) (Some "snapshot"))
  else ∃ e, sync_pair u verbose tr pl m = (inl e, m).
Proof.
  destruct m as [w out res]. unfold writable. simpl.
  unfold sync_pair, bind, call, set_results, print, ret. simpl.
  unfold mem_tracks, mem_remove, mem_add, mem_name, mem_update. simpl.
  destruct (lists w !! pl) as [p|] eqn:Hp; simpl;
    [| eexists; reflexivity].
  destruct (pl_writable p) eqn:Hw; simpl; rewrite ?Hp; simpl; rewrite ?Hw;
    simpl; [| eexists; reflexivity].
  rewrite lookup_alter_eq, Hp. simpl. rewrite Hw. simpl.
  assert (Hw' : alter (set_tracks (λ l, l ++ tr)) pl
                  (alter (set_tracks (remove_all tr)) pl (lists w))
                = alter (set_tracks (readd tr)) pl (lists w)).
  { apply map_eq. intros q. destruct (decide (pl = q)) as [<-|Hne].
    - rewrite !lookup_alter_eq. by destruct (lists w !! pl) as [[]|].
    - by rewrite !lookup_alter_ne. }
  unfold apply_pair. simpl. rewrite Hw'.
  destruct verbose; simpl.
  - repeat (rewrite lookup_alter_eq, Hp; simpl). eexists [_; _].
    by rewrite <- app_assoc.
  - exists []. by rewrite app_nil_r.
Qed.

Lemma mem_for_pairs ps : ∀ m : machine service,
  final_world (for_pairs u verbose ps m)
  = apply_pairs (live (world m) ps) (world m).
Proof.
  induction ps as [|[tr pl] ps IH]; intros m; [done |].
  simpl. unfold bind. pose proof (mem_sync_pair tr pl m) as Hpair.
  destruct (writable (world m) pl).
  - destruct Hpair as [out ->]. rewrite IH. simpl.
    f_equal. apply live_ext. intros q. apply writable_apply_pair.
  - by destruct Hpair as [e ->].
Qed.

(** The state of the service after a sync. *)
Lemma mem_sync_world tracks tracks_array (m : machine service) :
  final_world (sync u verbose tracks tracks_array m)
  = apply_pairs (live (world m) (pairs u tracks_array)) (world m).
Proof.
  unfold sync.
  destruct tracks_array as [|tr trs].
  { destruct (negb _ || negb _); done. }
  rewrite (bool_decide_eq_false_2 (tr :: trs = [])) by done.
  rewrite orb_true_r. unfold try_except.
  destruct (Z.leb_spec 1 (Z.of_nat (length (tr :: trs)))) as [_|Hlen];
    [| simpl in Hlen; lia].
  rewrite for_batches_pairs, <- mem_for_pairs.
  destruct (for_pairs u verbose _ m) as [[e|[]] m1]; [| done].
  unfold handler, raise, print, final_world. simpl.
  destruct (results m1) as [r|]; [| done].
  by destruct (is_empty_list r && verbose).
Qed.

End Runs.
End MemCatalogFacts.

(** ** Claims about the pass over the playlists *)

Module SyncClaims.
Import Sync SyncFacts MemCatalog MemCatalogFacts Samples.

(** C4, as the code has it: with [verbose] set, a pair that is processed
    without an exception prints the absolute value of the difference of
    the playlist's track count before the removal and after the addition;
    without [verbose] nothing is printed for the pair. *)
Theorem sync_pair_reports_absolute_difference {W : Type} `{Cat : Catalog W}
    (u : user) (tr : list string) (playlist : string) (m : machine W) :
  (∀ m',
     sync_pair u true tr playlist m = (inr tt, m') ↔
     ∃ old w1 w2 r w3 name w4 new w5,
       user_playlist_tracks (username u) playlist (world m) = (inr old, w1) ∧
       user_playlist_remove_all_occurrences_of_tracks
         (username u) playlist tr w1 = (inr tt, w2) ∧
       user_playlist_add_tracks (username u) playlist tr w2 = (inr r, w3) ∧
       user_playlist_name (username u) playlist w3 = (inr name, w4) ∧
       user_playlist_tracks (username u) playlist w4 = (inr new, w5) ∧
       m' = Machine w5
              (stdout m ++ [NewTracksAdded name (Z.abs (old - new)); BlankLine])
              (Some r)) ∧
  (∀ r m', sync_pair u false tr playlist m = (r, m') → stdout m' = stdout m).
Proof.
  split.
  - intros m'. unfold sync_pair, bind, call, set_results, print, ret. split.
    + repeat (case_match; simplify_eq; simpl in *; try done).
      intros [= <-]. do 9 eexists. repeat split; try eassumption.
      * match goal with
        | H : _ = (inr ?x, _) |- _ = (inr (), _) => by destruct x
        end.
      * by rewrite <- app_assoc.
    + intros (old & w1 & w2 & r & w3 & name & w4 & new & w5 &
              H1 & H2 & H3 & H4 & H5 & ->).
      rewrite H1; simpl. rewrite H2; simpl. rewrite H3; simpl.
      rewrite H4; simpl. rewrite H5; simpl. by rewrite <- app_assoc.
  - intros r m'. unfold sync_pair, bind, call, set_results, print, ret.
    repeat (case_match; simplify_eq; simpl in *; try done);
      by intros [= <- <-].
Qed.

Lemma sync_pair_reports_absolute_difference_witness :
  sync_pair (User "me" ["p"]) true ["a"] "p" (start with_duplicate)
  = (inr tt,
     Machine (Service {[ "p" := Playlist "mix" ["b"; "a"] true ]} ∅)
             [NewTracksAdded "mix" (Z.abs (3 - 2)); BlankLine]
             (Some "snapshot")).
Proof.
  apply (proj1 (sync_pair_reports_absolute_difference
                  (User "me" ["p"]) ["a"] "p" (start with_duplicate))).
  exists 3%Z, with_duplicate,
    (Service {[ "p" := Playlist "mix" ["b"] true ]} ∅), "snapshot",
    (Service {[ "p" := Playlist "mix" ["b"; "a"] true ]} ∅), "mix",
    (Service {[ "p" := Playlist "mix" ["b"; "a"] true ]} ∅), 2%Z,
    (Service {[ "p" := Playlist "mix" ["b"; "a"] true ]} ∅).
  repeat split; vm_compute; reflexivity.
Defined.

(** C4 as stated fails: a playlist that holds a track twice loses one
    entry when the track is synced, the count goes from 3 to 2, and the
    value printed is 1, not the net change of -1. *)
Lemma reported_value_is_not_the_net_change :
  let before := with_duplicate in
  let run := sync (User "me" ["p"]) true ["a"] [["a"]] (start before) in
  outcome (mem_tracks "me" "p" before) = inr 3%Z ∧
  outcome (mem_tracks "me" "p" (final run)) = inr 2%Z ∧
  printed run = [NewTracksAdded "mix" 1; BlankLine] ∧
  (2 - 3)%Z ≠ 1%Z.
Proof. repeat split; try (vm_compute; reflexivity). lia. Qed.

(** C3, as the code has it: when the removal or the addition of a pair
    raises after an earlier addition of the same sync has returned a
    result other than the empty list (or [verbose] is off), the sync
    stops at that pair, prints the one line "An error has occured removing
    or adding new tracks", and returns to its caller without an exception.
    (The case in which no addition has returned yet is left out.) *)
Theorem sync_failure_is_printed {W : Type} `{Cat : Catalog W}
    (u : user) (verbose : bool) (tracks : list string)
    (tracks_array : list (list string))
    (done_ rest : list (list string * string))
    (tr : list string) (playlist : string)
    (m m1 : machine W) (e : exn) (w' : W) (r : add_result) :
  pairs u tracks_array = done_ ++ (tr, playlist) :: rest →
  for_pairs u verbose done_ m = (inr tt, m1) →
  remove_or_add_fails u tr playlist (world m1) e w' →
  results m1 = Some r →
  is_empty_list r && verbose = false →
  sync u verbose tracks tracks_array m
  = (inr tt, Machine w' (stdout m1 ++ [ErrorOccurred]) (Some r)).
Proof.
  intros Hpairs Hdone Hfail Hres Hempty.
  assert (Hne : tracks_array ≠ []).
  { intros ->. by destruct done_. }
  unfold sync. rewrite (bool_decide_eq_false_2 _ Hne). rewrite orb_true_r.
  destruct (Z.leb_spec 1 (Z.of_nat (length tracks_array))) as [_|Hlen];
    [| destruct tracks_array; [done | simpl in Hlen; lia]].
  unfold try_except. rewrite for_batches_pairs, Hpairs, for_pairs_app.
  unfold bind at 1. rewrite Hdone. simpl. unfold bind at 1.
  rewrite (sync_pair_fails u verbose tr playlist m1 e w' Hfail).
  unfold handler. simpl. rewrite Hres, Hempty. unfold print. by simpl.
Qed.

Lemma sync_failure_is_printed_witness :
  sync (User "me" ["p"; "q"]) false ["a"] [["a"]] (start with_read_only)
  = (inr tt,
     Machine (apply_pair (["a"], "p") with_read_only)
             ([] ++ [ErrorOccurred]) (Some "snapshot")).
Proof.
  apply (sync_failure_is_printed (User "me" ["p"; "q"]) false ["a"] [["a"]]
           [(["a"], "p")] [] ["a"] "q" (start with_read_only)
           (Machine (apply_pair (["a"], "p") with_read_only) []
                    (Some ("snapshot" : @add_result service mem_catalog)))
           (ClientError 403)).
  - reflexivity.
  - vm_compute. reflexivity.
  - exists 1%Z, (apply_pair (["a"], "p") with_read_only).
    split; [vm_compute; reflexivity | left; vm_compute; reflexivity].
  - reflexivity.
  - reflexivity.
Defined.

(** C3 as stated fails: the removal on the second playlist raises, and
    the sync returns to its caller without an exception, having printed
    one line. *)
Lemma failed_removal_is_not_raised :
  let u := User "me" ["p"; "q"] in
  let reached := apply_pair (["a"], "p") with_read_only in
  let run := sync u false ["a"] [["a"]] (start with_read_only) in
  remove_or_add_fails u ["a"] "q" reached (ClientError 403) reached ∧
  outcome run = inr tt ∧
  printed run = [ErrorOccurred] ∧
  final run = reached.
Proof.
  repeat split; try (vm_compute; reflexivity).
  exists 1%Z, (apply_pair (["a"], "p") with_read_only).
  split; [vm_compute; reflexivity | left; vm_compute; reflexivity].
Qed.

(** C9: on the in-memory catalog, a second sync with the same batches
    and the same playlists leaves every playlist as the first sync left
    it, entry for entry; what the first sync leaves in a playlist is the
    remove-then-add of the batches that reached it. *)
Theorem sync_twice_is_sync_once (u : user) (verbose : bool)
    (tracks : list string) (tracks_array : list (list string))
    (w : service) :
  let once := final_world (sync u verbose tracks tracks_array (start w)) in
  let twice :=
    final_world (sync u verbose tracks tracks_array (start once)) in
  twice = once ∧
  (∀ pl, pl_tracks <$> lists twice !! pl = pl_tracks <$> lists once !! pl) ∧
  (∀ pl, lists once !! pl
         = set_tracks
             (readd_all (batches_for pl (live w (pairs u tracks_array))))
           <$> lists w !! pl).
Proof.
  simpl. rewrite !mem_sync_world. simpl.
  set (ps := pairs u tracks_array).
  assert (Hlive : live (apply_pairs (live w ps) w) ps = live w ps).
  { apply live_ext. intros q. apply writable_apply_pairs. }
  rewrite Hlive, apply_pairs_idem. repeat split.
  intros pl. apply lookup_apply_pairs.
Qed.

Lemma sync_twice_is_sync_once_witness :
  let u := User "me" ["p"] in
  let once := final_world (sync u true ["a"] [["a"]] (start with_duplicate)) in
  final_world (sync u true ["a"] [["a"]] (start once)) = once ∧
  pl_tracks <$> lists once !! "p" = Some ["b"; "a"].
Proof.
  split; [| vm_compute; reflexivity].
  apply (proj1 (sync_twice_is_sync_once (User "me" ["p"]) true ["a"] [["a"]]
                  with_duplicate)).
Defined.

End SyncClaims.

(** * Further properties *)

(** ** More about strings *)

Module PyStrMoreFacts.
Import PyStr PyStrFacts PyStrMore.

Lemma lower_idem c : lower (lower c) = lower c.
Proof. destruct c as [[] [] [] [] [] [] [] []]; reflexivity. Qed.

Lemma split_go_run l : ∀ cur s,
  Forall (λ c, isspace c = false) l →
  split_go cur (l ++ s) = split_go (cur ++ l) s.
Proof.
  induction l as [|c l IH]; intros cur s Hl; simpl.
  - by rewrite app_nil_r.
  - apply Forall_cons in Hl as [Hc Hl]. rewrite Hc, IH by done.
    by rewrite <- app_assoc.
Qed.

Lemma flush_chars w : w ≠ "" → flush (list_ascii_of_string w) = [w].
Proof.
  intros Hw. destruct w as [|c w]; [done |].
  unfold flush, join_chars.
  change (list_ascii_of_string (String c w))
    with (c :: list_ascii_of_string w).
  cbn [string_of_list_ascii]. by rewrite string_of_list_ascii_of_string.
Qed.

(** Splitting what [' '.join] made of words gives the words back. *)
Lemma split_join_space ws :
  Forall (λ w, w ≠ "" ∧
               Forall (λ c, isspace c = false) (list_ascii_of_string w)) ws →
  split (list_ascii_of_string (join_space ws)) = ws.
Proof.
  unfold split. induction 1 as [|w ws [Hne Hw] Hws IH]; [done |].
  destruct ws as [|w' ws].
  - simpl. rewrite <- (app_nil_r (list_ascii_of_string w)).
    rewrite split_go_run by done. simpl. by apply flush_chars.
  - cbn [join_space]. rewrite !chars_app, split_go_run by done.
    simpl. rewrite flush_chars by done. simpl. f_equal. apply IH.
Qed.

Lemma join_chars_nil_snoc cur c :
  list_ascii_of_string (join_chars (cur ++ [c]))
  = list_ascii_of_string (join_chars cur) ++ [c].
Proof. unfold join_chars. by rewrite !list_ascii_of_string_of_list_ascii. Qed.

(** [split] on a separator gives one piece more than there are
    separators. *)
Lemma length_split_on_go sep s : ∀ cur,
  length (split_on_go sep cur s) = S (length (filter (λ x, x = sep) s)).
Proof.
  induction s as [|c s IH]; intros cur; simpl; [done |].
  rewrite filter_cons. destruct (Ascii.eqb_spec c sep) as [->|Hne].
  - rewrite decide_True by done. simpl. by rewrite IH.
  - rewrite decide_False by done. apply IH.
Qed.

Lemma length_split_on sep s :
  length (split_on sep s) = S (count_char sep s).
Proof. apply length_split_on_go. Qed.

(** A string with one separator splits into what stands before and what
    stands after it. *)
Lemma split_on_go_no_sep sep s : ∀ cur,
  Forall (λ c, c ≠ sep) s → split_on_go sep cur s = [join_chars (cur ++ s)].
Proof.
  induction s as [|c s IH]; intros cur Hs; simpl.
  - by rewrite app_nil_r.
  - apply Forall_cons in Hs as [Hc Hs].
    destruct (Ascii.eqb_spec c sep) as [->|_]; [done |].
    rewrite IH by done. by rewrite <- app_assoc.
Qed.

Lemma split_on_go_one sep (b : string) l : ∀ cur,
  Forall (λ c, c ≠ sep) l →
  Forall (λ c, c ≠ sep) (list_ascii_of_string b) →
  split_on_go sep cur (l ++ list_ascii_of_string (String sep b))
  = [join_chars (cur ++ l); b].
Proof.
  induction l as [|c l IH]; intros cur Hl Hb.
  - simpl. rewrite Ascii.eqb_refl, app_nil_r.
    rewrite split_on_go_no_sep by done. simpl.
    unfold join_chars. by rewrite string_of_list_ascii_of_string.
  - apply Forall_cons in Hl as [Hc Hl]. simpl.
    destruct (Ascii.eqb_spec c sep) as [->|_]; [done |].
    rewrite IH by done. by rewrite <- app_assoc.
Qed.

Lemma split_on_two sep (a b : string) :
  Forall (λ c, c ≠ sep) (list_ascii_of_string a) →
  Forall (λ c, c ≠ sep) (list_ascii_of_string b) →
  split_on sep (a +:+ String sep b) = [a; b].
Proof.
  intros Ha Hb. unfold split_on.
  rewrite chars_app, split_on_go_one by done.
  unfold join_chars. simpl. by rewrite string_of_list_ascii_of_string.
Qed.

End PyStrMoreFacts.

(** ** More about the title parser *)

Module TagParserExtras.
Import PyStr PyStrFacts PyStrMore PyStrMoreFacts.
Import TagParser TagParserFacts TagParserMore.

Lemma scan_step_plain st c :
  plain_char c → add_to_tag st = false →
  scan_step st c =
    ScanState (tags st) (filtered_title st ++ [c]) (tag st) (last_pun st) false.
Proof.
  intros ([Hop Hcl] & Hdash & Hlow) Hout. unfold scan_step.
  rewrite Hlow, Hop, Hcl, Hout.
  by destruct (Ascii.eqb_spec c "-") as [->|_].
Qed.

(** Outside a tag, plain characters go to the title buffer one by one. *)
Lemma scan_plain l : ∀ st,
  Forall plain_char l → add_to_tag st = false →
  foldl scan_step st l =
    ScanState (tags st) (filtered_title st ++ l) (tag st) (last_pun st) false.
Proof.
  induction l as [|c l IH]; intros st Hl Hout; simpl.
  - rewrite app_nil_r. by destruct st; simpl in *; subst.
  - apply Forall_cons in Hl as [Hc Hl].
    rewrite scan_step_plain by done. rewrite IH by done. simpl.
    by rewrite <- app_assoc.
Qed.

(** The title buffer holds plain characters only. *)
Lemma scan_title_plain title :
  Forall plain_char (filtered_title (scan scan_init title)).
Proof.
  apply (scan_invariant (λ st, Forall plain_char (filtered_title st)));
    [| constructor].
  intros st c Hst. unfold scan_step.
  destruct (is_opener (lower c)) eqn:Hop; [by destruct (add_to_tag st) |].
  destruct (is_closer (lower c)) eqn:Hcl.
  { destruct (add_to_tag st); [by case_decide | done]. }
  destruct (Ascii.eqb_spec (lower c) "-") as [Heq|Hne]; [done |]. simpl.
  destruct (add_to_tag st); [done |]. simpl.
  apply Forall_snoc; [done |].
  repeat split; [done | done | done | apply lower_idem].
Qed.

(** The words of the title buffer: non-empty, of plain characters that
    are no white space. *)
Lemma title_words title :
  Forall (λ w, w ≠ "" ∧
               Forall (λ c, plain_char c ∧ isspace c = false)
                      (list_ascii_of_string w))
         (split (filtered_title (scan scan_init title))).
Proof. apply split_words, scan_title_plain. Qed.

Lemma ft_truncate_before_marker ft_set ws : ∀ pre i,
  (Z.of_nat (length pre) ≤ i + 1)%Z →
  slice_to (pre ++ ws) (ft_loop ft_set ws (Z.of_nat (length pre)) i + 1)
  = pre ++ before_marker ft_set ws.
Proof.
  induction ws as [|w ws IH]; intros pre i Hi; simpl.
  - rewrite app_nil_r. unfold slice_to.
    destruct (Z.ltb_spec (i + 1) 0); [lia |]. apply take_ge. lia.
  - case_decide.
    + replace (Z.of_nat (length pre) - 1 + 1)%Z
        with (Z.of_nat (length pre)) by lia.
      rewrite slice_to_nonneg, app_nil_r. by rewrite take_app_length.
    + specialize (IH (pre ++ [w]) (Z.of_nat (length pre))).
      rewrite length_app, <- app_assoc in IH. simpl in IH.
      replace (Z.of_nat (length pre + 1)) with (Z.of_nat (length pre) + 1)%Z
        in IH by lia.
      rewrite IH by lia. by rewrite <- app_assoc.
Qed.

Lemma before_marker_prefix ft_set ws : before_marker ft_set ws `prefix_of` ws.
Proof.
  induction ws as [|w ws IH]; simpl; [done |].
  case_decide; [apply prefix_nil | by apply prefix_cons].
Qed.

Lemma before_marker_free ft_set ws :
  Forall (λ w, w ∉ ft_set) (before_marker ft_set ws).
Proof.
  induction ws as [|w ws IH]; simpl; [constructor |].
  case_decide; by constructor.
Qed.

Lemma before_marker_stops ft_set ws w :
  ws !! length (before_marker ft_set ws) = Some w → w ∈ ft_set.
Proof.
  induction ws as [|x ws IH]; simpl; [done |].
  case_decide; simpl; [by intros [= <-] | done].
Qed.

Lemma before_marker_id ft_set ws :
  Forall (λ w, w ∉ ft_set) ws → before_marker ft_set ws = ws.
Proof.
  induction 1 as [|w ws Hw Hws IH]; simpl; [done |].
  by rewrite decide_False, IH.
Qed.

Lemma ft_truncate_eq_before_marker ft_set words :
  ft_truncate ft_set words = before_marker ft_set words.
Proof.
  unfold ft_truncate.
  apply (ft_truncate_before_marker ft_set words [] 0%Z). simpl. lia.
Qed.

(** X1: the index loop and its slice compute the longest prefix of the
    words that holds no marker: a prefix of the input, free of markers,
    that ends at a marker word or at the end of the input. *)
Theorem ft_truncate_longest_marker_free_prefix
    (ft_set : gset string) (words : list string) :
  ft_truncate ft_set words = before_marker ft_set words ∧
  ft_truncate ft_set words `prefix_of` words ∧
  Forall (λ w, w ∉ ft_set) (ft_truncate ft_set words) ∧
  (∀ w, words !! length (ft_truncate ft_set words) = Some w → w ∈ ft_set).
Proof.
  rewrite ft_truncate_eq_before_marker. split; [done |].
  split; [apply before_marker_prefix |].
  split; [apply before_marker_free | apply before_marker_stops].
Qed.

(** X2: the query holds no dash and no character that lower-casing would
    change. *)
Theorem query_is_lower_case_without_dash
    (ft_set : gset string) (title : string) (c : ascii) :
  has_char c (filter_tags ft_set title).1 →
  c ≠ "-"%char ∧ lower c = c.
Proof.
  unfold filter_tags, has_char. simpl. intros Hc.
  assert (Hall : Forall (λ c, c ≠ "-"%char ∧ lower c = c)
            (list_ascii_of_string
               (join_space
                  (ft_truncate ft_set
                     (split (filtered_title (scan scan_init title))))))).
  { apply join_space_chars; [by split |].
    unfold ft_truncate. apply slice_to_sublist.
    eapply Forall_impl; [apply title_words |].
    intros w [_ Hw]. eapply Forall_impl; [exact Hw |].
    by intros x [(_ & ? & ?) _]. }
  rewrite Forall_forall in Hall. by apply Hall.
Qed.

Lemma query_is_lower_case_without_dash_witness :
  has_char "y" (filter_tags ∅ "Jay-Z - 99 Problems").1 ∧
  ("y"%char ≠ "-"%char ∧ lower "y" = "y"%char).
Proof.
  assert (H : has_char "y" (filter_tags ∅ "Jay-Z - 99 Problems").1).
  { unfold has_char. apply (bool_decide_unpack _). vm_compute. exact I. }
  split; [exact H |].
  exact (query_is_lower_case_without_dash ∅ "Jay-Z - 99 Problems" "y" H).
Defined.

Lemma kept_words ft_set title :
  Forall (λ w, w ≠ "" ∧
               Forall (λ c, isspace c = false) (list_ascii_of_string w))
         (ft_truncate ft_set (split (filtered_title (scan scan_init title)))).
Proof.
  unfold ft_truncate. apply slice_to_sublist.
  eapply Forall_impl; [apply title_words |].
  intros w [Hne Hw]. split; [done |].
  eapply Forall_impl; [exact Hw |]. by intros x [_ ?].
Qed.

(** X3: the query is its kept words joined by single spaces and nothing
    else: splitting it on white space gives the kept words back, and
    joining those again gives the query. *)
Theorem query_is_normalised (ft_set : gset string) (title : string) :
  let query := (filter_tags ft_set title).1 in
  split (list_ascii_of_string query)
  = ft_truncate ft_set (split (filtered_title (scan scan_init title))) ∧
  join_space (split (list_ascii_of_string query)) = query.
Proof.
  simpl. unfold filter_tags. simpl.
  rewrite split_join_space by apply kept_words. done.
Qed.

(** X4: parsing a query that the parser returned gives the same query
    back, with no tag. *)
Theorem filter_tags_idempotent (ft_set : gset string) (title : string) :
  filter_tags ft_set (filter_tags ft_set title).1
  = ((filter_tags ft_set title).1, ∅).
Proof.
  set (words := split (filtered_title (scan scan_init title))).
  assert (Hq : (filter_tags ft_set title).1
               = join_space (ft_truncate ft_set words)) by done.
  rewrite Hq.
  assert (Hplain : Forall plain_char
            (list_ascii_of_string (join_space (ft_truncate ft_set words)))).
  { apply join_space_chars; [by repeat split |].
    unfold ft_truncate. apply slice_to_sublist.
    eapply Forall_impl; [apply title_words |].
    intros w [_ Hw]. eapply Forall_impl; [exact Hw |]. by intros x [? _]. }
  unfold filter_tags at 1. unfold scan.
  rewrite (scan_plain _ scan_init Hplain eq_refl). simpl.
  rewrite split_join_space by apply kept_words.
  rewrite !ft_truncate_eq_before_marker.
  by rewrite before_marker_id by apply before_marker_free.
Qed.

End TagParserExtras.

(** ** The tags of closed groups *)

Module TagParserTags.
Import PyStr PyStrFacts PyStrMore PyStrMoreFacts.
Import TagParser TagParserFacts TagParserMore TagParserClaims.

Lemma pun_dict_closer c o :
  pun_dict !! c = Some o → is_closer c = true ∧ is_opener o = true.
Proof.
  unfold pun_dict. intros H.
  destruct (decide (c = "]"%char)) as [->|Hc1].
  { rewrite lookup_insert_eq in H. by injection H as <-. }
  rewrite lookup_insert_ne in H by done.
  destruct (decide (c = ")"%char)) as [->|Hc2].
  { rewrite lookup_insert_eq in H. by injection H as <-. }
  rewrite lookup_insert_ne in H by done. done.
Qed.

Lemma tag_content_cons c rest :
  tag_content (c :: rest) = tag_content [c] ++ tag_content rest.
Proof.
  unfold tag_content. rewrite !fmap_cons, !filter_cons. simpl.
  by case_decide.
Qed.

Lemma scan_step_tag_buffer st o c :
  add_to_tag st = true → last_pun st = Some o →
  pun_dict !! c ≠ Some o →
  tag (scan_step st c) = tag st ++ tag_content [c].
Proof.
  intros Hin Ho Hc.
  unfold tag_content. rewrite fmap_cons, filter_cons. simpl.
  destruct (is_opener c) eqn:Hop.
  { destruct (lower_special c) as (_ & _ & _ & Hlow).
    rewrite Hop in Hlow. rewrite scan_step_opener, Hin by done. simpl.
    rewrite Hlow by done.
    rewrite decide_True; [done |]. intros ->. discriminate. }
  destruct (is_closer c) eqn:Hcl.
  { destruct (lower_special c) as (_ & _ & _ & Hlow).
    rewrite Hop, Hcl in Hlow.
    rewrite scan_step_closer, Hin, Ho by done.
    rewrite decide_False by done. simpl.
    rewrite Hlow by done.
    rewrite decide_True; [done |]. intros ->. discriminate. }
  destruct (lower_special c) as (Hop' & Hcl' & _ & _).
  unfold scan_step. rewrite Hop', Hop, Hcl', Hcl, Hin.
  destruct (Ascii.eqb_spec (lower c) "-") as [Heq|Hne]; simpl.
  - rewrite decide_False by (by intros ?). by rewrite app_nil_r.
  - by rewrite decide_True.
Qed.

(** Inside a tag that is not closed, the buffer takes the content. *)
Lemma scan_tag_buffer o rest : ∀ st,
  add_to_tag st = true → last_pun st = Some o →
  (∀ c, c ∈ rest → pun_dict !! c ≠ Some o) →
  tag (foldl scan_step st rest) = tag st ++ tag_content rest.
Proof.
  induction rest as [|c rest IH]; intros st Hin Ho Hrest.
  - simpl. by rewrite app_nil_r.
  - assert (Hc : pun_dict !! c ≠ Some o) by (apply Hrest; by left).
    destruct (scan_step_in_tag st o c Hin Ho Hc) as (_ & _ & Hin' & Ho').
    simpl. rewrite IH; [| done | done | intros x Hx; apply Hrest; by right].
    rewrite (scan_step_tag_buffer st o c) by done.
    by rewrite (tag_content_cons c rest), app_assoc.
Qed.

(** Outside a tag the buffer is empty. *)
Lemma scan_buffer_empty title :
  add_to_tag (scan scan_init title) = false →
  tag (scan scan_init title) = [].
Proof.
  apply (scan_invariant (λ st, add_to_tag st = false → tag st = []));
    [| done].
  intros st c Hst. unfold scan_step.
  destruct (is_opener (lower c)); [by destruct (add_to_tag st) |].
  destruct (is_closer (lower c)).
  { destruct (add_to_tag st) eqn:Hin; [by case_decide | auto]. }
  destruct (negb _); [| done].
  destruct (add_to_tag st) eqn:Hin; [done | simpl; auto].
Qed.

(** A tag in the set stays there. *)
Lemma tags_grow w s : ∀ st, w ∈ tags st → w ∈ tags (scan st s).
Proof.
  apply (scan_invariant (λ st, w ∈ tags st)).
  intros st c Hst. unfold scan_step.
  destruct (is_opener (lower c)); [by destruct (add_to_tag st) |].
  destruct (is_closer (lower c)).
  { destruct (add_to_tag st); [| done]. case_decide; [| done].
    simpl. apply elem_of_add_tags. by left. }
  destruct (negb _); [| done]. by destruct (add_to_tag st).
Qed.

(** X5: a group that starts outside any tag and is closed by the closer
    that matches its opener gives every word of its content to the tag
    set, in lower case and without dashes, whatever follows it. *)
Theorem closed_group_gives_its_words (ft_set : gset string)
    (before inside after : string) (o c : ascii) (w : string) :
  add_to_tag (scan scan_init before) = false →
  pun_dict !! c = Some o →
  (∀ x, has_char x inside → pun_dict !! x ≠ Some o) →
  w ∈ split (tag_content (list_ascii_of_string inside)) →
  w ∈ (filter_tags ft_set
         (before +:+ String o (inside +:+ String c after))).2.
Proof.
  intros Hout Hc Hinside Hw. unfold filter_tags. simpl.
  destruct (pun_dict_closer c o Hc) as [Hcl Hop].
  pose proof (scan_buffer_empty before Hout) as Hempty.
  rewrite scan_app. set (st0 := scan scan_init before) in *.
  unfold scan at 1. cbn [list_ascii_of_string foldl].
  rewrite (scan_step_opener st0 o Hop), Hout, chars_app, foldl_app.
  cbn [list_ascii_of_string foldl].
  set (st1 := ScanState (tags st0) (filtered_title st0) (tag st0) (Some o) true).
  destruct (scan_in_tag o (list_ascii_of_string inside) st1 eq_refl eq_refl
              Hinside) as (_ & _ & Hin2 & Ho2).
  pose proof (scan_tag_buffer o (list_ascii_of_string inside) st1 eq_refl
                eq_refl Hinside) as Hbuf.
  simpl in Hin2, Ho2, Hbuf. rewrite Hempty in Hbuf. simpl in Hbuf.
  set (st2 := foldl scan_step st1 (list_ascii_of_string inside)) in *.
  rewrite (scan_step_closer st2 c Hcl), Hin2, Ho2.
  rewrite decide_True by done.
  apply (tags_grow w after). simpl.
  apply elem_of_add_tags. right. by rewrite Hbuf.
Qed.

Lemma closed_group_gives_its_words_witness :
  "d4nny" ∈ (filter_tags ∅
               ("Nice 2 Yeet ya " +:+
                String "[" ("prod. by D4NNY" +:+ String "]" " (Remix)"))).2.
Proof.
  apply (closed_group_gives_its_words ∅ "Nice 2 Yeet ya " "prod. by D4NNY"
           " (Remix)" "["%char "]"%char "d4nny").
  - reflexivity.
  - reflexivity.
  - intros x Hx. unfold has_char in Hx. simpl in Hx.
    repeat (apply elem_of_cons in Hx as [-> | Hx]; [by vm_compute |]).
    by apply elem_of_nil in Hx.
  - apply (bool_decide_unpack _). vm_compute. exact I.
Defined.

(** X6: a title without an opening bracket or parenthesis has no tags. *)
Theorem no_opener_no_tags (ft_set : gset string) (title : string) :
  (∀ c, has_char c title → is_opener c = false) →
  (filter_tags ft_set title).2 = ∅.
Proof.
  intros Hno. unfold filter_tags, scan, has_char in *. simpl.
  assert (Hgo : ∀ l st,
            (∀ c, c ∈ l → is_opener c = false) →
            add_to_tag st = false →
            tags (foldl scan_step st l) = tags st).
  { induction l as [|c l IH]; intros st Hl Hout; [done |]. simpl.
    assert (Hstep : tags (scan_step st c) = tags st ∧
                    add_to_tag (scan_step st c) = false).
    { unfold scan_step. destruct (lower_special c) as (Hop & _).
      rewrite Hop, (Hl c) by (by left). rewrite Hout.
      destruct (is_closer (lower c)); [done |]. by destruct (negb _). }
    destruct Hstep as [Ht Ha]. rewrite IH; [done | | done].
    intros x Hx. apply Hl. by right. }
  by rewrite Hgo.
Qed.

Lemma no_opener_no_tags_witness :
  (filter_tags ∅ "Drake - God's Plan] ft. nobody").2 = ∅.
Proof.
  apply (no_opener_no_tags ∅ "Drake - God's Plan] ft. nobody").
  intros c Hc. unfold has_char in Hc. simpl in Hc.
  repeat (apply elem_of_cons in Hc as [-> | Hc]; [reflexivity |]).
  by apply elem_of_nil in Hc.
Defined.

End TagParserTags.

(** ** More about the pass over the feed *)

Module FeedExtras.
Import PyStr PyStrFacts Resolver Feed FeedFacts MemCatalog Samples.

Lemma before_query_no_mark s c :
  has_char c (before_query s) → c ≠ "?"%char.
Proof.
  unfold has_char. induction s as [|x s IH]; simpl.
  - intros H. by apply elem_of_nil in H.
  - destruct (Ascii.eqb_spec x "?") as [->|Hne]; simpl.
    + intros H. by apply elem_of_nil in H.
    + intros [-> | H]%elem_of_cons; [done | by apply IH].
Qed.

Lemma before_query_prefix s : ∃ rest, s = before_query s +:+ rest.
Proof.
  induction s as [|x s [rest IH]]; simpl; [by exists "" |].
  destruct (x =? "?")%char; [by eexists |].
  exists rest. rewrite IH at 1. reflexivity.
Qed.

Lemma re_search_kind s kind :
  re_search_track_album s = Some kind →
  (kind = "track" ∨ kind = "album") ∧ contains kind s = true.
Proof.
  induction s as [|x s IH].
  - simpl. repeat case_match; intros; simplify_eq.
  - intros H. cbn [re_search_track_album] in H.
    destruct (String.prefix "track" (String x s)) eqn:Ht.
    { injection H as <-. split; [by left |].
      cbn [contains]. by rewrite Ht. }
    destruct (String.prefix "album" (String x s)) eqn:Ha.
    { injection H as <-. split; [by right |].
      cbn [contains]. by rewrite Ha. }
    destruct (IH H) as [Hk Hc]. split; [done |].
    cbn [contains]. rewrite Hc. apply orb_true_r.
Qed.

(** The pattern finds nothing exactly in the strings in which neither
    word occurs. *)
Lemma re_search_none s :
  re_search_track_album s = None ↔
  contains "track" s = false ∧ contains "album" s = false.
Proof.
  induction s as [|x s IH].
  - by vm_compute.
  - cbn [re_search_track_album contains].
    destruct (String.prefix "track" (String x s));
      [split; [done | by intros [? _]] |].
    destruct (String.prefix "album" (String x s));
      [split; [done | by intros [_ ?]] |].
    simpl. apply IH.
Qed.

Section WithCatalog.
Context {W : Type} `{Cat : Catalog W}.
Variable ft_set : gset string.
Variables (fresh : bool) (threshold : option Z) (includeAlbums verbose : bool).

(** X7: a direct link is queued exactly when the leftmost "track" or
    "album" of its URL is "track", its score is not below the threshold,
    and, with [fresh] set, its title holds "[FRESH]"; what is queued is
    the URL up to its first question mark. *)
Theorem direct_link_queued_iff (sub : post) (tracks : list string)
    (m : machine W) :
  let queued :=
    re_search_track_album (url sub) = Some "track" ∧
    below_threshold threshold (score sub) = false ∧
    (fresh = true → contains "[FRESH]" (title sub) = true) in
  (queued →
   ∃ m', addSpotifyTrack fresh threshold includeAlbums verbose sub tracks m
         = (inr (tracks ++ [before_query (url sub)]), m')) ∧
  (¬ queued →
   ∀ r m', addSpotifyTrack fresh threshold includeAlbums verbose sub tracks m
           = (inr r, m') → r = tracks) ∧
  (∀ c, has_char c (before_query (url sub)) → c ≠ "?"%char) ∧
  (∃ rest, url sub = before_query (url sub) +:+ rest).
Proof.
  simpl. split; [| split; [| split]].
  - intros (Hk & Hlow & Hfresh).
    unfold addSpotifyTrack, print_post, bind, ret, print.
    rewrite Hk, Hlow. simpl.
    assert (Hf : fresh && negb (contains "[FRESH]" (title sub)) = false).
    { destruct fresh; [by rewrite Hfresh | done]. }
    rewrite Hf, andb_false_r. destruct verbose; by eexists.
  - intros Hnot r m'.
    unfold addSpotifyTrack, print_post, bind, ret, raise, print.
    destruct (re_search_track_album (url sub)) as [kind|] eqn:Hk;
      [| by intros [= <- _]].
    destruct (below_threshold threshold (score sub)) eqn:Hlow.
    { destruct verbose; simpl; by intros [= <- _]. }
    destruct (fresh && negb (contains "[FRESH]" (title sub))) eqn:Hf.
    { destruct verbose; simpl; by intros [= <- _]. }
    destruct (includeAlbums && String.eqb kind "album").
    { destruct verbose; simpl; by intros [= ]. }
    destruct (String.eqb_spec kind "track") as [->|_].
    + exfalso. apply Hnot. split; [done | split; [done |]].
      intros ->. simpl in Hf. by apply negb_false_iff in Hf.
    + destruct verbose; simpl; by intros [= <- _].
  - intros c. apply before_query_no_mark.
  - apply before_query_prefix.
Qed.

(** X8: a direct link whose URL holds neither "track" nor "album" is
    skipped: nothing is queued and nothing is printed, also with
    [verbose] set. *)
Theorem other_link_is_skipped (sub : post) (tracks : list string)
    (m : machine W) :
  contains "track" (url sub) = false →
  contains "album" (url sub) = false →
  addSpotifyTrack fresh threshold includeAlbums verbose sub tracks m
  = (inr tracks, m).
Proof.
  intros Ht Ha. unfold addSpotifyTrack.
  by rewrite (proj2 (re_search_none (url sub)) (conj Ht Ha)).
Qed.


Lemma feed_loop_app pre post : ∀ tracks arr (m : machine W),
  feed_loop ft_set fresh threshold includeAlbums verbose (pre ++ post)
            tracks arr m
  = match feed_loop ft_set fresh threshold includeAlbums verbose pre
                    tracks arr m with
    | (inr (tracks', arr'), m1) =>
        feed_loop ft_set fresh threshold includeAlbums verbose post
                  tracks' arr' m1
    | (inl e, m1) => (inl e, m1)
    end.
Proof.
  induction pre as [|sub pre IH]; intros tracks arr m; simpl; [done |].
  unfold bind.
  destruct (post_step _ _ _ _ _ sub tracks m) as [[e|tracks1] m1]; [done |].
  destruct (90 <? _)%Z; apply IH.
Qed.

End WithCatalog.

(** X10: when no post resolves to a track, nothing is synced: [main]
    makes no call on a playlist and prints nothing more. *)
Theorem empty_harvest_is_no_sync {W : Type} `{Cat : Catalog W}
    (ft_set : gset string) (u : user) (fresh : bool) (threshold : option Z)
    (includeAlbums verbose : bool) (subs : list post) (m m' : machine W) :
  resolve_all ft_set fresh threshold includeAlbums verbose subs [] m
  = (inr [], m') →
  main_body ft_set u fresh threshold includeAlbums verbose subs m
  = (inr tt, m').
Proof.
  intros Hall.
  destruct (feed_loop_resolve ft_set fresh threshold includeAlbums verbose
              subs [] [] m [] m') as (tracks & arr & Hloop & Hcat & _ & Harr);
    [simpl; lia | constructor | done |].
  apply app_eq_nil in Hcat as [Hcat ->].
  assert (arr = []) as ->.
  { destruct arr as [|b arr]; [done |].
    apply Forall_cons in Harr as [Hb _]. simpl in Hcat.
    apply app_eq_nil in Hcat as [-> _]. done. }
  unfold main_body, collect, bind. rewrite Hloop. by simpl.
Qed.

Lemma empty_harvest_is_no_sync_witness :
  main_body markers (User "me" ["p"]) true None false false
    [Post "Some talk [DISCUSSION]" "https://reddit.com/r/x" "reddit.com" 5]
    (start one_playlist)
  = (inr tt, start one_playlist).
Proof.
  apply empty_harvest_is_no_sync. vm_compute. reflexivity.
Defined.

(** X11: with [includeAlbums] set, a direct album link that passes the
    score and [FRESH] tests ends the run with [NameError]: the tracks
    gathered before it are never synced and no call on a playlist is
    made. *)
Theorem album_link_aborts_the_run {W : Type} `{Cat : Catalog W}
    (ft_set : gset string) (u : user) (fresh : bool) (threshold : option Z)
    (verbose : bool) (pre rest : list post) (sub : post)
    (m m1 : machine W) (all : list string) :
  resolve_all ft_set fresh threshold true verbose pre [] m = (inr all, m1) →
  domain sub = "open.spotify.com" →
  re_search_track_album (url sub) = Some "album" →
  below_threshold threshold (score sub) = false →
  (fresh = true → contains "[FRESH]" (title sub) = true) →
  ∃ m2,
    main_body ft_set u fresh threshold true verbose (pre ++ sub :: rest) m
    = (inl (NameError "spotifyObj"), m2) ∧
    world m2 = world m1 ∧ results m2 = results m1.
Proof.
  intros Hall Hdom Hk Hlow Hfresh.
  destruct (feed_loop_resolve ft_set fresh threshold true verbose
              pre [] [] m all m1) as (tracks & arr & Hloop & _);
    [simpl; lia | constructor | done |].
  assert (Hf : fresh && negb (contains "[FRESH]" (title sub)) = false).
  { destruct fresh; [by rewrite Hfresh | done]. }
  unfold main_body, collect. unfold bind at 1 2.
  rewrite feed_loop_app, Hloop. cbn [feed_loop]. unfold bind at 1.
  unfold post_step. rewrite Hdom. simpl.
  unfold addSpotifyTrack, print_post, bind, ret, raise, print.
  rewrite Hk, Hlow, Hf. simpl.
  destruct verbose; simpl; by eexists.
Qed.

Lemma album_link_aborts_the_run_witness :
  ∃ m2,
    main_body markers (User "me" ["p"]) false None true false
      ([low_score_link] ++
       Post "New album" "https://open.spotify.com/album/xyz"
            "open.spotify.com" 7 :: [low_score_post])
      (start one_playlist)
    = (inl (NameError "spotifyObj"), m2) ∧
    world m2 = world (start one_playlist) ∧
    results m2 = results (start one_playlist).
Proof.
  apply (album_link_aborts_the_run markers (User "me" ["p"]) false None false
           [low_score_link] [low_score_post] _ (start one_playlist)
           (start one_playlist)
           ["https://open.spotify.com/track/abc"]);
    [vm_compute; reflexivity | reflexivity | reflexivity | reflexivity | done].
Defined.

End FeedExtras.

Module FeedExtrasWitnesses.
Import PyStr Feed FeedExtras MemCatalog Samples.

Lemma other_link_is_skipped_witness :
  addSpotifyTrack false None true true
    (Post "A playlist" "https://open.spotify.com/playlist/xyz"
          "open.spotify.com" 50)
    ["t"] (start one_playlist)
  = (inr ["t"], start one_playlist).
Proof.
  apply (other_link_is_skipped false None true true
           (Post "A playlist" "https://open.spotify.com/playlist/xyz"
                 "open.spotify.com" 50));
    reflexivity.
Defined.


End FeedExtrasWitnesses.

(** ** More about the pass over the playlists *)

Module SyncExtras.
Import Sync SyncFacts TraceCatalog.

Lemma sync_pair_read_fails {W : Type} `{Cat : Catalog W} (u : user)
    (verbose : bool) tr pl (m : machine W) e w' :
  user_playlist_tracks (username u) pl (world m) = (inl e, w') →
  sync_pair u verbose tr pl m = (inl e, Machine w' (stdout m) (results m)).
Proof. intros Hread. unfold sync_pair, bind, call. by rewrite Hread. Qed.

(** X12: when the first pair fails before an addition has returned (the
    count cannot be read, or the removal or the addition raises), the
    handler reads the unbound [results] and the sync raises
    [UnboundLocalError] instead of printing its error line. *)
Theorem first_failure_raises_unbound_local {W : Type} `{Cat : Catalog W}
    (u : user) (verbose : bool) (tracks : list string)
    (tracks_array : list (list string)) (tr : list string) (pl : string)
    (rest : list (list string * string))
    (m : machine W) (e : exn) (w' : W) :
  results m = None →
  pairs u tracks_array = (tr, pl) :: rest →
  user_playlist_tracks (username u) pl (world m) = (inl e, w')
  ∨ remove_or_add_fails u tr pl (world m) e w' →
  sync u verbose tracks tracks_array m
  = (inl (UnboundLocalError "results"), Machine w' (stdout m) None).
Proof.
  intros Hres Hpairs Hfail.
  assert (Hne : tracks_array ≠ []) by (by intros ->).
  assert (Hpair : sync_pair u verbose tr pl m
                  = (inl e, Machine w' (stdout m) (results m))).
  { destruct Hfail as [Hread | Hfail];
      [by apply sync_pair_read_fails | by apply sync_pair_fails]. }
  unfold sync. rewrite (bool_decide_eq_false_2 _ Hne), orb_true_r.
  destruct (Z.leb_spec 1 (Z.of_nat (length tracks_array))) as [_|Hlen];
    [| destruct tracks_array; [done | simpl in Hlen; lia]].
  unfold try_except. rewrite for_batches_pairs, Hpairs.
  cbn [for_pairs]. unfold bind at 1. rewrite Hpair.
  unfold handler. simpl. by rewrite Hres.
Qed.

Lemma trace_sync_pair (u : user) (verbose : bool) tr pl
    (m : machine (list client_call)) :
  ∃ out,
    sync_pair u verbose tr pl m
    = (inr tt,
       Machine (world m ++ calls_of_pair (username u) verbose (tr, pl))
               (stdout m ++ out) (Some tt)).
Proof.
  unfold sync_pair, bind, call, set_results, print, ret, calls_of_pair.
  destruct verbose; simpl.
  - eexists [_; _]. by rewrite <- !app_assoc.
  - exists []. by rewrite <- !app_assoc, !app_nil_r.
Qed.

Lemma trace_for_pairs (u : user) (verbose : bool) ps :
  ∀ m : machine (list client_call),
    (for_pairs u verbose ps m).1 = inr tt ∧
    world (for_pairs u verbose ps m).2
    = world m ++ concat (calls_of_pair (username u) verbose <$> ps).
Proof.
  induction ps as [|[tr pl] ps IH]; intros m.
  - simpl. by rewrite app_nil_r.
  - cbn [for_pairs]. unfold bind.
    destruct (trace_sync_pair u verbose tr pl m) as [out ->].
    cbn beta iota.
    match goal with
    | |- context [for_pairs u verbose ps ?m1] =>
        destruct (IH m1) as [Ho Hw]; rewrite Ho, Hw
    end.
    split; [done |]. simpl. by rewrite <- app_assoc.
Qed.

(** X13: on a client that records its calls and never fails, the sync
    makes, for each batch and within it for each playlist in turn, one
    read of the count, then one removal and then one addition of the
    batch (and with [verbose] one read of the name and a second read of
    the count), and no other call. *)
Theorem sync_calls_per_pair (u : user) (verbose : bool)
    (tracks : list string) (tracks_array : list (list string))
    (m : machine (list client_call)) :
  (sync u verbose tracks tracks_array m).1 = inr tt ∧
  world (sync u verbose tracks tracks_array m).2
  = world m
    ++ concat (calls_of_pair (username u) verbose <$> pairs u tracks_array).
Proof.
  unfold sync. destruct tracks_array as [|tr trs].
  { simpl. rewrite app_nil_r. by destruct (negb _). }
  rewrite (bool_decide_eq_false_2 (tr :: trs = [])) by done.
  rewrite orb_true_r. unfold try_except.
  destruct (Z.leb_spec 1 (Z.of_nat (length (tr :: trs)))) as [_|Hlen];
    [| simpl in Hlen; lia].
  rewrite for_batches_pairs.
  destruct (trace_for_pairs u verbose (pairs u (tr :: trs)) m) as [Ho Hw].
  destruct (for_pairs u verbose _ m) as [[e|[]] m1]; [done |]. done.
Qed.

End SyncExtras.

Module SyncExtrasWitnesses.
Import Sync SyncExtras MemCatalog Samples.

Lemma first_failure_raises_unbound_local_witness :
  sync (User "me" ["q"; "p"]) true ["a"] [["a"]] (start with_read_only)
  = (inl (UnboundLocalError "results"), Machine with_read_only [] None).
Proof.
  apply (first_failure_raises_unbound_local (User "me" ["q"; "p"]) true
           ["a"] [["a"]] ["a"] "q" [(["a"], "p")] (start with_read_only)
           (ClientError 403) with_read_only).
  - reflexivity.
  - reflexivity.
  - right. exists 1%Z, with_read_only.
    split; [vm_compute; reflexivity | left; vm_compute; reflexivity].
Defined.

End SyncExtrasWitnesses.

(** ** The configuration file *)

Module ConfigExtras.
Import PyStr PyStrFacts PyStrMore PyStrMoreFacts Config.

Lemma unpack_extension_count config_file :
  count_char "." config_file ≠ 1%nat →
  unpack_extension config_file = inl ValueError.
Proof.
  intros Hcount. unfold unpack_extension.
  pose proof (length_split_on "." config_file) as Hlen.
  destruct (split_on "." config_file) as [|a [|b [|c l]]]; try done.
  simpl in Hlen. lia.
Qed.

Lemma unpack_extension_one stem ext :
  Forall (λ c, c ≠ "."%char) (list_ascii_of_string stem) →
  Forall (λ c, c ≠ "."%char) (list_ascii_of_string ext) →
  unpack_extension (stem +:+ String "." ext) = inr ext.
Proof.
  intros Hs He. unfold unpack_extension. by rewrite split_on_two.
Qed.

(** X14: the name of the file is judged before the file is touched: a name
    with no dot or with more than one raises [ValueError], which is no
    [ConfigFileError]; a name with one dot whose extension is not "ini"
    in some letter case raises [ConfigInvalidExtension]; both whatever is
    stored under the name. *)
Theorem config_name_is_checked_first (files : string → file_state) :
  (∀ config_file,
     count_char "." config_file ≠ 1%nat →
     createUserFromFile files config_file = inl ValueError) ∧
  (∀ stem ext,
     Forall (λ c, c ≠ "."%char) (list_ascii_of_string stem) →
     Forall (λ c, c ≠ "."%char) (list_ascii_of_string ext) →
     lower_string ext ≠ "ini" →
     createUserFromFile files (stem +:+ String "." ext)
     = inl (ConfigInvalidExtension ext)).
Proof.
  split.
  - intros config_file Hcount. unfold createUserFromFile.
    by rewrite unpack_extension_count.
  - intros stem ext Hs He Hext. unfold createUserFromFile.
    rewrite unpack_extension_one by done.
    by destruct (String.eqb_spec (lower_string ext) "ini").
Qed.

Lemma config_name_is_checked_first_witness :
  createUserFromFile (λ _, Parsed ∅) "./config.ini" = inl ValueError ∧
  createUserFromFile (λ _, Parsed ∅) ("config" +:+ String "." "txt")
  = inl (ConfigInvalidExtension "txt").
Proof.
  split.
  - apply (proj1 (config_name_is_checked_first (λ _, Parsed ∅))).
    vm_compute. lia.
  - apply (proj2 (config_name_is_checked_first (λ _, Parsed ∅)));
      [by repeat constructor | by repeat constructor | by vm_compute].
Defined.



End ConfigExtras.

(** ** The command line *)

Module ArgsExtras.
Import PyStr PyStrMore PyStrMoreFacts Feed Args.

Lemma lower_string_idem s : lower_string (lower_string s) = lower_string s.
Proof.
  unfold lower_string. rewrite list_ascii_of_string_of_list_ascii.
  f_equal. rewrite <- list_fmap_compose. apply list_fmap_ext.
  intros i c _. apply lower_idem.
Qed.

(** The next test of the chain of [process_subreddit]. *)
Ltac next_name :=
  match goal with
  | |- context [String.eqb ?a ?b] =>
      destruct (String.eqb_spec a b) as [->|?]
  end.

(** X16: the sorting method is matched without regard to letter case, the
    limit is passed on as it is, and a method is accepted exactly when
    its lower case is one of the six names. *)
Theorem process_subreddit_ignores_case (choice : string) (l : Z) :
  process_subreddit (lower_string choice) l = process_subreddit choice l ∧
  (∀ k l', process_subreddit choice l = Some (k, l') ↔
           lower_string choice = listing_name k ∧ l' = l) ∧
  (process_subreddit choice l = None ↔ lower_string choice ∉ sort_choices).
Proof.
  split; [| split].
  - unfold process_subreddit. by rewrite lower_string_idem.
  - intros k l'. unfold process_subreddit.
    repeat (next_name;
            [split; [intros [= <- <-]; by split
                    | intros [Hk ->]; destruct k; try discriminate Hk;
                      reflexivity] |]).
    split; [done |]. intros [Hk _]. by destruct k.
  - unfold process_subreddit, sort_choices.
    repeat (next_name;
            [split; [done |]; intros Hn; exfalso; apply Hn;
             apply (bool_decide_unpack _); by vm_compute |]).
    split; [| done]. intros _ Hin.
    repeat (apply elem_of_cons in Hin as [Heq | Hin]; [done |]).
    by apply elem_of_nil in Hin.
Qed.

(** X17: whichever way the sorting method is obtained (the option, which
    the parser restricts to its six choices, or an entry of the menu
    below its caption), [process_subreddit] accepts it and requests the
    listing of that name with the limit of [process_args]: the exit
    branch is never reached. *)
Theorem sort_is_always_dispatched (args : namespace) (ans : answers) :
  (∀ s, a_sort args = Some s → s ∈ sort_choices) →
  (1 ≤ selected ans ≤ 6)%nat →
  ∃ prompts p k,
    process_args args ans = (prompts, Some p) ∧
    process_subreddit (p_choice p) (p_limit p) = Some (k, p_limit p) ∧
    listing_name k = p_choice p.
Proof.
  intros Hsort Hsel. unfold process_args.
  destruct (match a_limit args with
            | Some n => if (n =? 0)%Z then (number ans, [AskLimit]) else (n, [])
            | None => (number ans, [AskLimit])
            end) as [l asked_limit].
  assert (Hmenu : ∃ k, process_choice_input (selected ans)
                       = Some (listing_name k)).
  { destruct (selected ans) as [|[|[|[|[|[|[|n]]]]]]]; try lia;
      [by exists Hot | by exists New | by exists Rising
      | by exists RandomRising | by exists Controversial | by exists Top]. }
  assert (Hchoice : ∃ k asked,
            match a_sort args with
            | Some s =>
                if String.eqb s ""
                then (process_choice_input (selected ans), [AskSort])
                else (Some s, [])
            | None => (process_choice_input (selected ans), [AskSort])
            end = (Some (listing_name k), asked)).
  { destruct Hmenu as [k Hk].
    destruct (a_sort args) as [s|]; [| rewrite Hk; by eexists _, _].
    destruct (String.eqb_spec s "") as [->|Hne]; [rewrite Hk; by eexists _, _ |].
    specialize (Hsort s eq_refl). unfold sort_choices in Hsort.
    repeat (apply elem_of_cons in Hsort as [-> | Hsort];
            [first [by exists Hot, [] | by exists New, []
                   | by exists Rising, [] | by exists RandomRising, []
                   | by exists Controversial, [] | by exists Top, []] |]).
    by apply elem_of_nil in Hsort. }
  destruct Hchoice as (k & asked & ->).
  destruct (if a_fresh args then (true, []) else (yes_no ans, [AskFresh]))
    as [fresh asked_fresh].
  eexists _, _, k. split; [reflexivity |]. simpl.
  split; [| done]. by destruct k.
Qed.

Lemma sort_is_always_dispatched_witness :
  ∃ prompts p k,
    process_args (Namespace false None None (Some 0%Z) false false false)
                 (Answers 25 6 true)
    = (prompts, Some p) ∧
    process_subreddit (p_choice p) (p_limit p) = Some (k, p_limit p) ∧
    listing_name k = p_choice p.
Proof.
  apply (sort_is_always_dispatched
           (Namespace false None None (Some 0%Z) false false false)
           (Answers 25 6 true)); [done | simpl; lia].
Defined.

(** X18: a limit or a threshold of 0 on the command line counts as not
    given: for the limit the user is asked, and the threshold is dropped,
    so that the score test of [addSpotifyTrack] is in force exactly for a
    threshold other than 0, and then for the scores below it. *)
Theorem zero_counts_as_absent (args : namespace) (ans : answers)
    (prompts : list prompt) (p : processed) :
  process_args args ans = (prompts, Some p) →
  p_threshold p ≠ Some 0%Z ∧
  (∀ sc, below_threshold (p_threshold p) sc = true ↔
         ∃ t, a_threshold args = Some t ∧ t ≠ 0%Z ∧ (sc < t)%Z) ∧
  (a_limit args = Some 0%Z ∨ a_limit args = None →
   p_limit p = number ans ∧ AskLimit ∈ prompts) ∧
  (∀ n, a_limit args = Some n → n ≠ 0%Z →
        p_limit p = n ∧ AskLimit ∉ prompts).
Proof.
  unfold process_args. intros Hrun.
  destruct (match a_limit args with
            | Some n => if (n =? 0)%Z then (number ans, [AskLimit]) else (n, [])
            | None => (number ans, [AskLimit])
            end) as [l asked_limit] eqn:Hlimit.
  destruct (match a_sort args with
            | Some s =>
                if String.eqb s ""
                then (process_choice_input (selected ans), [AskSort])
                else (Some s, [])
            | None => (process_choice_input (selected ans), [AskSort])
            end) as [[choice|] asked_sort] eqn:Hsort; [| done].
  destruct (if a_fresh args then (true, []) else (yes_no ans, [AskFresh]))
    as [fresh asked_fresh] eqn:Hfresh.
  injection Hrun as <- <-. simpl.
  assert (Hothers : AskLimit ∉ asked_sort ++ asked_fresh ++
                      (if a_playlists args then [ManagePlaylists] else [])).
  { assert (Hs : asked_sort = [] ∨ asked_sort = [AskSort])
      by (repeat case_match; simplify_eq; auto).
    assert (Hf : asked_fresh = [] ∨ asked_fresh = [AskFresh])
      by (repeat case_match; simplify_eq; auto).
    intros Hin. rewrite !elem_of_app in Hin.
    destruct Hin as [Hin | [Hin | Hin]].
    - destruct Hs as [-> | ->]; [by apply elem_of_nil in Hin |].
      by apply list_elem_of_singleton in Hin.
    - destruct Hf as [-> | ->]; [by apply elem_of_nil in Hin |].
      by apply list_elem_of_singleton in Hin.
    - destruct (a_playlists args); [| by apply elem_of_nil in Hin].
      by apply list_elem_of_singleton in Hin. }
  split; [| split; [| split]].
  - destruct (a_threshold args) as [t|]; [| done].
    destruct (Z.eqb_spec t 0); [done | by intros [= ->]].
  - intros sc. unfold below_threshold.
    destruct (a_threshold args) as [t|];
      [| split; [done | by intros (t & [=] & _)]].
    destruct (Z.eqb_spec t 0) as [->|Hne].
    + split; [done | by intros (t & [= <-] & ? & _)].
    + destruct (Z.eqb_spec t 0); [done |]. simpl. rewrite Z.ltb_lt.
      split; [intros ?; by exists t | by intros (? & [= <-] & _ & ?)].
  - intros [Hl | Hl]; rewrite Hl in Hlimit; simpl in Hlimit;
      injection Hlimit as <- <-;
      (split; [done | apply elem_of_cons; by left]).
  - intros n Hl Hn. rewrite Hl in Hlimit.
    destruct (Z.eqb_spec n 0) as [|_]; [done |].
    injection Hlimit as <- <-. by split.
Qed.

Lemma zero_counts_as_absent_witness :
  p_threshold (Processed true 25 "top" None false true) ≠ Some 0%Z ∧
  p_limit (Processed true 25 "top" None false true) = 25%Z.
Proof.
  destruct (zero_counts_as_absent
              (Namespace true (Some 0%Z) None (Some 0%Z) false true false)
              (Answers 25 6 false) [AskLimit; AskSort]
              (Processed true 25 "top" None false true) eq_refl)
    as (Ht & _ & Hl & _).
  split; [exact Ht | exact (proj1 (Hl (or_introl eq_refl)))].
Defined.

End ArgsExtras.
